(** * synflownet.config: the configuration tree and its two walkers

    A shallow embedding of [src/synflownet/config.py]: the dataclass
    schemas [OptimizerConfig] and [Config], and the two recursive
    operations [init_empty] and [override_config] that mutate a tree of
    dataclass instances in place.

    Dataclass instances are mutable Python objects, so they live in an
    explicit store and are named by their address; plain data (numbers,
    strings, [None], lists, dicts) is immutable as far as this module is
    concerned and is modelled by value. *)

From Stdlib Require Import PrimFloat.
From stdpp Require Import ssreflect gmap strings list fin_maps.

Open Scope string_scope.
Open Scope list_scope.
Open Scope nat_scope.

#[local] Set Warnings "-inexact-float,-rewrite-rw".

#[local] Unset Elimination Schemes.

(** ** Plain data *)

(** What a YAML file or a schema default can hold.  A Python [dict] keeps
    its insertion order and [override_config] walks it in that order, so
    a mapping is an association list. *)
Inductive data :=
| DNone
| DBool (b : bool)
| DInt (z : Z)
| DFloat (x : float)
| DStr (s : string)
| DList (xs : list data)
| DDict (items : list (string * data)).

(** ** Schemas *)

(** A [@dataclass] class: its name and its [fields()], in declaration
    order.  A field has a name, a declared type [f.type] and a default.
    Of the declared type only [is_dataclass(f.type)] is ever inspected; a
    class refers to classes defined before it, so a schema is a finite
    tree.  A default is a value ([x: int = 0]) or a factory
    ([field(default_factory=AlgoConfig)]). *)
Inductive class :=
| Class (cname : string) (cfields : list field)
with field :=
| Field (fname : string) (ftype : ftype) (fdefault : fdefault)
with ftype :=
| TPlain
| TData (c : class)
with fdefault :=
| DValue (d : data)
| DFactory (c : class).

#[local] Set Elimination Schemes.

Definition cname (c : class) : string := let 'Class n _ := c in n.
Definition cfields (c : class) : list field := let 'Class _ fs := c in fs.
Definition fname (f : field) : string := let 'Field n _ _ := f in n.
Definition f_type (f : field) : ftype := let 'Field _ t _ := f in t.
Definition f_default (f : field) : fdefault := let 'Field _ _ d := f in d.

Definition field_names (c : class) : list string := fname <$> cfields c.

(** [name in {f.name for f in fields(cls)}] *)
Definition declared (c : class) (name : string) : bool :=
  bool_decide (name ∈ field_names c).

(** ** The store *)

Definition loc := nat.

(** What an attribute can hold: plain data, or a reference to a dataclass
    instance. *)
Inductive value :=
| VData (d : data)
| VRef (l : loc).

(** [is_dataclass(obj)] on an attribute value. *)
Definition is_dataclass (v : value) : bool :=
  match v with VRef _ => true | VData _ => false end.

Record object := Obj {
  obj_class : class;
  obj_attrs : gmap string value
}.

(** Objects are never freed; a new object takes the next address. *)
Definition heap := list object.

(** The exceptions that can be raised: the strictness error of
    [StrictDataClass]; Python's [AttributeError] (as for [(3).items()],
    or for a field that neither the instance nor its class has); and
    the use of an address that holds no object, which a Python
    reference never is. *)
Inductive exn :=
| UnknownFieldError (node_schema : string) (name : string)
| AttributeError
| DanglingReference.

(** Computations that read and write the store and may raise.  The store
    is returned in both cases: a raised exception does not roll back the
    writes made before it. *)
Definition M (A : Type) : Type := heap → (exn + A) * heap.

Definition ret {A} (a : A) : M A := λ h, (inr a, h).
Definition raise {A} (e : exn) : M A := λ h, (inl e, h).
Definition bind {A B} (m : M A) (k : A → M B) : M B :=
  λ h, match m h with
       | (inr a, h') => k a h'
       | (inl e, h') => (inl e, h')
       end.

Notation "'let*' x ':=' m 'in' k" := (bind m (λ x, k))
  (at level 10, x pattern, m at level 100, k at level 200).

(** [for x in xs: body(x)] *)
Definition for_each {A} (body : A → M unit) : list A → M unit :=
  fix loop xs :=
    match xs with
    | [] => ret tt
    | x :: rest => let* _ := body x in loop rest
    end.

(** Object creation, before [__init__] has run. *)
Definition alloc (c : class) : M loc :=
  λ h, (inr (length h), h ++ [Obj c ∅]).

(** What [@dataclass] leaves on the class for a field: the default
    value of a field declared with one ([x: int = 0] stays a class
    attribute), nothing for a field declared with a default factory. *)
Definition class_attr (c : class) (name : string) : option value :=
  match list_find (λ f, fname f = name) (cfields c) with
  | Some (_, f) =>
      match f_default f with
      | DValue d => Some (VData d)
      | DFactory _ => None
      end
  | None => None
  end.

(** Python's attribute lookup on an instance: the attribute of the
    instance if it has been assigned, else the attribute of its class. *)
Definition lookup_attr (o : object) (name : string) : option value :=
  match obj_attrs o !! name with
  | Some v => Some v
  | None => class_attr (obj_class o) name
  end.

(** Modelled from the spec: [StrictDataClass] (synflownet.utils.misc) is
    not among the sources.  Reading a field that the node's schema does
    not declare fails with [UnknownFieldError{node_schema, name}].  A
    declared field is looked up as Python does; when neither the
    instance nor the class has the attribute, that is
    [AttributeError]. *)
Definition getattr (l : loc) (name : string) : M value :=
  λ h, match h !! l with
       | None => (inl DanglingReference, h)
       | Some o =>
           if declared (obj_class o) name then
             match lookup_attr o name with
             | Some v => (inr v, h)
             | None => (inl AttributeError, h)
             end
           else (inl (UnknownFieldError (cname (obj_class o)) name), h)
       end.

(** Modelled from the spec: [StrictDataClass] (synflownet.utils.misc) is
    not among the sources.  Writing a field that the node's schema does
    not declare fails with [UnknownFieldError{node_schema, name}]; a
    declared field is overwritten in place. *)
Definition setattr (l : loc) (name : string) (v : value) : M unit :=
  λ h, match h !! l with
       | None => (inl DanglingReference, h)
       | Some o =>
           if declared (obj_class o) name then
             (inr tt, <[l := Obj (obj_class o) (<[name := v]> (obj_attrs o))]> h)
           else (inl (UnknownFieldError (cname (obj_class o)) name), h)
       end.

(** [type(obj)] *)
Definition type_of (l : loc) : M class :=
  λ h, match h !! l with
       | None => (inl DanglingReference, h)
       | Some o => (inr (obj_class o), h)
       end.

(** ** Construction *)

(** [cls()]: the generated [__init__] called without arguments.  It
    assigns, field by field, the default value or a fresh result of the
    default factory. *)
Fixpoint new (c : class) : M loc :=
  let* self := alloc c in
  let* _ := for_each (λ f,
      let* v := match f_default f with
                | DValue d => ret (VData d)
                | DFactory c' => let* sub := new c' in ret (VRef sub)
                end in
      setattr self (fname f) v) (cfields c) in
  ret self.

(** ** override_config *)

(** [override_config(cfg, overrides)].  [overrides.items()] exists only
    on a mapping; on any other plain value the attribute lookup raises
    [AttributeError]. *)
Fixpoint override_config (cfg : loc) (overrides : data) : M loc :=
  match overrides with
  | DDict items =>
      let* _ := for_each (λ '(key, value),
          let* cur := getattr cfg key in
          match cur with
          | VRef sub =>   (* is_dataclass(getattr(cfg, key)) *)
              let* _ := override_config sub value in ret tt
          | VData _ => setattr cfg key (VData value)
          end) items in
      ret cfg
  | _ => raise AttributeError
  end.

(** ** init_empty *)

Section Sentinel.

(** [from omegaconf import MISSING]: the package is not part of the
    repository; the sentinel is some plain value. *)
Variable MISSING : data.

(** The body of [init_empty] for an object whose class is [c]; the
    recursive call is on [f.type()], an object of class [f.type]. *)
Fixpoint init_empty_cls (c : class) (cfg : loc) : M loc :=
  let* _ := for_each (λ f,
      match f_type f with
      | TData c' =>
          let* fresh := new c' in
          let* sub := init_empty_cls c' fresh in
          setattr cfg (fname f) (VRef sub)
      | TPlain => setattr cfg (fname f) (VData MISSING)
      end) (cfields c) in
  ret cfg.

(** [init_empty(cfg)]: [fields(cfg)] are those of [type(cfg)]. *)
Definition init_empty (cfg : loc) : M loc :=
  let* c := type_of cfg in init_empty_cls c cfg.

End Sentinel.

(** ** The schemas of config.py *)

Definition OptimizerConfig : class :=
  Class "OptimizerConfig" [
    Field "opt" TPlain (DValue (DStr "adam"));
    Field "learning_rate" TPlain (DValue (DFloat 1e-4));
    Field "lr_decay" TPlain (DValue (DInt 20000));
    Field "weight_decay" TPlain (DValue (DFloat 1e-8));
    Field "momentum" TPlain (DValue (DFloat 0.9));
    Field "clip_grad_type" TPlain (DValue (DStr "norm"));
    Field "clip_grad_param" TPlain (DValue (DFloat 10.0));
    Field "adam_eps" TPlain (DValue (DFloat 1e-8))
  ].

Section RootSchema.

Variable MISSING : data.

(** The sub-schemas imported from modules that are not among the
    sources. *)
Variables AlgoConfig ModelConfig ReplayConfig TasksConfig
  ConditionalsConfig VinaConfig Boltz2Config : class.

Definition Config : class :=
  Class "Config" [
    Field "desc" TPlain (DValue (DStr "noDesc"));
    Field "log_dir" TPlain (DValue MISSING);
    Field "resume" TPlain (DValue DNone);
    Field "device" TPlain (DValue (DStr "cuda"));
    Field "seed" TPlain (DValue (DInt 0));
    Field "validate_every" TPlain (DValue (DInt 1000));
    Field "checkpoint_every" TPlain (DValue DNone);
    Field "store_all_checkpoints" TPlain (DValue (DBool false));
    Field "print_every" TPlain (DValue (DInt 100));
    Field "start_at_step" TPlain (DValue (DInt 0));
    Field "num_final_gen_steps" TPlain (DValue DNone);
    Field "num_validation_gen_steps" TPlain (DValue DNone);
    Field "num_training_steps" TPlain (DValue (DInt 10000));
    Field "num_workers" TPlain (DValue (DInt 0));
    Field "hostname" TPlain (DValue DNone);
    Field "pickle_mp_messages" TPlain (DValue (DBool false));
    Field "mp_buffer_size" TPlain (DValue (DInt (32 * 4096 ^ 2)));
    Field "git_hash" TPlain (DValue DNone);
    Field "overwrite_existing_exp" TPlain (DValue (DBool false));
    Field "algo" (TData AlgoConfig) (DFactory AlgoConfig);
    Field "model" (TData ModelConfig) (DFactory ModelConfig);
    Field "opt" (TData OptimizerConfig) (DFactory OptimizerConfig);
    Field "replay" (TData ReplayConfig) (DFactory ReplayConfig);
    Field "task" (TData TasksConfig) (DFactory TasksConfig);
    Field "cond" (TData ConditionalsConfig) (DFactory ConditionalsConfig);
    Field "reward" TPlain (DValue (DStr "seh_reaction"));
    Field "vina" (TData VinaConfig) (DFactory VinaConfig);
    Field "boltz2" (TData Boltz2Config) (DFactory Boltz2Config)
  ].

End RootSchema.

(** ** Reading the store *)

(** [type(obj)], as an observation. *)
Definition class_at (h : heap) (l : loc) : option class :=
  obj_class <$> h !! l.

(** The value a successful [getattr(obj, name)] yields. *)
Definition field_val (h : heap) (l : loc) (name : string) : option value :=
  match h !! l with
  | Some o => if declared (obj_class o) name then lookup_attr o name else None
  | None => None
  end.

(** [cfg.k1.k2...kn], following references from [v]. *)
Fixpoint path_val (h : heap) (v : value) (p : list string) : option value :=
  match p with
  | [] => Some v
  | k :: p' =>
      match v with
      | VRef l =>
          match field_val h l k with
          | Some v' => path_val h v' p'
          | None => None
          end
      | VData _ => None
      end
  end.

(** ** Induction over nested data and schemas *)

Section data_ind.
Variable P : data → Prop.
Hypothesis HNone : P DNone.
Hypothesis HBool : ∀ b, P (DBool b).
Hypothesis HInt : ∀ z, P (DInt z).
Hypothesis HFloat : ∀ x, P (DFloat x).
Hypothesis HStr : ∀ s, P (DStr s).
Hypothesis HList : ∀ xs, Forall P xs → P (DList xs).
Hypothesis HDict : ∀ items, Forall (λ kv, P kv.2) items → P (DDict items).

Fixpoint data_ind (d : data) : P d :=
  match d with
  | DNone => HNone
  | DBool b => HBool b
  | DInt z => HInt z
  | DFloat x => HFloat x
  | DStr s => HStr s
  | DList xs =>
      HList xs ((fix go xs : Forall P xs :=
                   match xs with
                   | [] => @List.Forall_nil _ P
                   | x :: r => @List.Forall_cons _ P x r (data_ind x) (go r)
                   end) xs)
  | DDict items =>
      HDict items
        ((fix go items : Forall (λ kv, P kv.2) items :=
            match items with
            | [] => @List.Forall_nil _ _
            | (k, v) :: r => @List.Forall_cons _ (λ kv, P kv.2) (k, v) r (data_ind v) (go r)
            end) items)
  end.
End data_ind.

Section class_ind.
Variable P : class → Prop.

Definition field_all (f : field) : Prop :=
  match f_type f with TData c => P c | TPlain => True end ∧
  match f_default f with DFactory c => P c | DValue _ => True end.

Hypothesis HClass : ∀ n fs, Forall field_all fs → P (Class n fs).

Fixpoint class_ind (c : class) : P c :=
  match c with
  | Class n fs =>
      HClass n fs
        ((fix go fs : Forall field_all fs :=
            match fs with
            | [] => @List.Forall_nil _ _
            | f :: r =>
                @List.Forall_cons _ field_all f r
                  (match f return field_all f with
                   | Field _ t d =>
                       conj
                         (match t return match t with TData c => P c | TPlain => True end with
                          | TData c' => class_ind c'
                          | TPlain => I
                          end)
                         (match d return match d with DFactory c => P c | DValue _ => True end with
                          | DFactory c' => class_ind c'
                          | DValue _ => I
                          end)
                   end)
                  (go r)
            end) fs)
  end.
End class_ind.

(** Field names are unique within a class (a class body binds each name
    once), here and in every class the schema refers to. *)
Fixpoint wf_class (c : class) : bool :=
  bool_decide (NoDup (field_names c)) &&
  forallb (λ f,
      match f_type f with TData c' => wf_class c' | TPlain => true end &&
      match f_default f with DFactory c' => wf_class c' | DValue _ => true end)
    (cfields c).

(** ** Trees as the abstract content of a store *)

(** The content of a configuration tree, without addresses: a leaf value,
    or a node of some class with one subtree per field. *)
#[local] Unset Elimination Schemes.

Inductive tree :=
| Leaf (d : data)
| Node (c : class) (kids : list (string * tree)).

#[local] Set Elimination Schemes.

Section tree_ind.
Variable P : tree → Prop.
Hypothesis HLeaf : ∀ d, P (Leaf d).
Hypothesis HNode : ∀ c kids, Forall (λ kt, P kt.2) kids → P (Node c kids).

Fixpoint tree_ind (t : tree) : P t :=
  match t with
  | Leaf d => HLeaf d
  | Node c kids =>
      HNode c kids
        ((fix go kids : Forall (λ kt, P kt.2) kids :=
            match kids with
            | [] => @List.Forall_nil _ _
            | (k, t') :: r =>
                @List.Forall_cons _ (λ kt, P kt.2) (k, t') r (tree_ind t') (go r)
            end) kids)
  end.
End tree_ind.

(** What [cls()] builds. *)
Fixpoint default_tree (c : class) : tree :=
  Node c ((λ f, (fname f,
                 match f_default f with
                 | DFactory c' => default_tree c'
                 | DValue d => Leaf d
                 end)) <$> cfields c).

(** The all-[MISSING] template of a class: every plain field is
    [MISSING], every field declared with a dataclass type is a template
    of that type. *)
Fixpoint blank_tree (MISSING : data) (c : class) : tree :=
  Node c ((λ f, (fname f,
                 match f_type f with
                 | TData c' => blank_tree MISSING c'
                 | TPlain => Leaf MISSING
                 end)) <$> cfields c).

(** [repr lo hi h v t]: in store [h], the value [v] holds the content
    [t], and every node of it lives at an address in [[lo, hi)]. *)
Fixpoint repr (lo hi : nat) (h : heap) (v : value) (t : tree) : Prop :=
  match t with
  | Leaf d => v = VData d
  | Node c kids =>
      ∃ l, v = VRef l ∧ lo ≤ l < hi ∧ class_at h l = Some c ∧
        (fix all (kids : list (string * tree)) : Prop :=
           match kids with
           | [] => True
           | (k, t') :: rest =>
               (∃ v', field_val h l k = Some v' ∧ repr lo hi h v' t') ∧ all rest
           end) kids
  end.

(** The fields of the object at [l] hold the contents [kids]. *)
Definition repr_kids (lo hi : nat) (h : heap) (l : loc)
    (kids : list (string * tree)) : Prop :=
  Forall (λ kt, ∃ v', field_val h l kt.1 = Some v' ∧ repr lo hi h v' kt.2) kids.

Definition kids_of (t : tree) : list (string * tree) :=
  match t with Node _ kids => kids | Leaf _ => [] end.

(** ** Override trees *)

(** The path [k1.k2...kn] appears in the override tree: [k1] is a key of
    the mapping, [k2] a key of the mapping under [k1], and so on. *)
Fixpoint mentioned (overrides : data) (p : list string) : bool :=
  match p with
  | [] => true
  | k :: p' =>
      match overrides with
      | DDict items =>
          (fix any (items : list (string * data)) : bool :=
             match items with
             | [] => false
             | (k', v) :: rest =>
                 (bool_decide (k' = k) && mentioned v p') || any rest
             end) items
      | _ => false
      end
  end.

(** The override tree [{k1: {k2: ... {kn: v}}}]. *)
Fixpoint single (p : list string) (v : data) : data :=
  match p with
  | [] => v
  | k :: p' => DDict [(k, single p' v)]
  end.

(** The declared type found by following the field names [p] through the
    schema. *)
Fixpoint schema_at (c : class) (p : list string) : option ftype :=
  match p with
  | [] => Some (TData c)
  | k :: p' =>
      match list_find (λ f, fname f = k) (cfields c) with
      | Some (_, f) =>
          match f_type f with
          | TData c' => schema_at c' p'
          | TPlain => match p' with [] => Some TPlain | _ :: _ => None end
          end
      | None => None
      end
  end.

(** A store [h'] that holds the same objects as [h] at every address
    outside [l]. *)
Definition same_but (l : loc) (h h' : heap) : Prop :=
  ∀ l', l' ≠ l → h' !! l' = h !! l'.

(** What one iteration of a constructor loop establishes for the field
    [k] of [self]: nothing older than the iteration changes except
    [self], no other field of [self] changes, and field [k] holds the
    content [t] at addresses allocated during the iteration. *)
Definition step_post (self : loc) (c : class) (k : string) (t : tree)
    (h h' : heap) : Prop :=
  length h ≤ length h' ∧
  (∀ l, l < length h → l ≠ self → h' !! l = h !! l) ∧
  class_at h' self = Some c ∧
  (∀ k', k' ≠ k → field_val h' self k' = field_val h self k') ∧
  ∃ v, field_val h' self k = Some v ∧ repr (length h) (length h') h' v t.

(** The same for a whole loop over the fields [kids]. *)
Definition loop_post (self : loc) (c : class) (kids : list (string * tree))
    (h h' : heap) : Prop :=
  length h ≤ length h' ∧
  (∀ l, l < length h → l ≠ self → h' !! l = h !! l) ∧
  class_at h' self = Some c ∧
  (∀ k', k' ∉ kids.*1 → field_val h' self k' = field_val h self k') ∧
  repr_kids (length h) (length h') h' self kids.

(** ** Observations *)

(** What a caller can see at the end of a path of field names: a plain
    value, or a dataclass instance of some class. *)
Inductive seen :=
| SeenData (d : data)
| SeenNode (c : class).

Definition observe (h : heap) (cfg : loc) (p : list string) : option seen :=
  match path_val h (VRef cfg) p with
  | Some (VData d) => Some (SeenData d)
  | Some (VRef l) => SeenNode <$> class_at h l
  | None => None
  end.

(** What the schema [c] prescribes at the path [p] for an all-[MISSING]
    tree: [MISSING] at a plain field, an instance of the declared class
    at a field declared with a dataclass type. *)
Definition template (MISSING : data) (c : class) (p : list string)
    : option seen :=
  match schema_at c p with
  | Some TPlain => Some (SeenData MISSING)
  | Some (TData c') => Some (SeenNode c')
  | None => None
  end.

(** The same, read from the value [v], with the addresses of the nodes
    confined to [[lo, hi)]. *)
Definition blank_at (MISSING : data) (lo hi : nat) (h : heap) (v : value)
    (c : class) (p : list string) : Prop :=
  match schema_at c p with
  | Some TPlain => path_val h v p = Some (VData MISSING)
  | Some (TData c') =>
      ∃ l, path_val h v p = Some (VRef l) ∧ lo ≤ l < hi ∧
           class_at h l = Some c'
  | None => path_val h v p = None
  end.

(** ** Frames *)

(** [h'] has the objects of [h], with the same classes and the same
    references between them; only plain values may differ. *)
Definition same_shape (h h' : heap) : Prop :=
  (∀ l, class_at h' l = class_at h l) ∧
  ∀ l k,
    match field_val h l k with
    | Some (VRef l2) => field_val h' l k = Some (VRef l2)
    | Some (VData _) => ∃ d', field_val h' l k = Some (VData d')
    | None => field_val h' l k = None
    end.

(** The field [k] of the object at [l] is not named by the override
    tree: along no path from [cfg] to that object does the tree mention
    the field. *)
Definition untouched (h : heap) (cfg : loc) (overrides : data)
    (l : loc) (k : string) : Prop :=
  ∀ q, path_val h (VRef cfg) q = Some (VRef l) →
       mentioned overrides (q ++ [k]) = false.

(** Each node owns its children: no node below [cfg] is reached by two
    different paths. *)
Definition is_tree (h : heap) (cfg : loc) : Prop :=
  ∀ q1 q2 l,
    path_val h (VRef cfg) q1 = Some (VRef l) →
    path_val h (VRef cfg) q2 = Some (VRef l) → q1 = q2.

(** ** A small tree for examples *)

Definition Sub : class :=
  Class "Sub" [
    Field "y" TPlain (DValue (DInt 1));
    Field "z" TPlain (DValue (DInt 2))
  ].

Definition Root : class :=
  Class "Root" [
    Field "x" TPlain (DValue (DInt 5));
    Field "sub" (TData Sub) (DFactory Sub)
  ].

(** The store after [Root()] in an empty store: the root at address 0,
    its [sub] at address 1. *)
Definition demo_heap : heap := [
  Obj Root {["x" := VData (DInt 5); "sub" := VRef 1]};
  Obj Sub {["y" := VData (DInt 1); "z" := VData (DInt 2)]}
].

(** A stand-in for the sentinel in closed examples. *)
Definition demo_missing : data := DStr "???".

(** ** When override_config goes through *)

(** The override tree fits the store below [cfg]: it is a mapping, each
    of its keys is a declared field of the node that can be read (the
    instance or its class has the attribute), and a key whose field
    holds a nested node carries an override tree that fits that node.
    (A key whose field holds plain data may carry anything.) *)
Fixpoint acceptable (h : heap) (cfg : loc) (overrides : data) : bool :=
  match overrides with
  | DDict items =>
      (fix all (items : list (string * data)) : bool :=
         match items with
         | [] => true
         | (k, v) :: rest =>
             match field_val h cfg k with
             | Some (VRef sub) => acceptable h sub v
             | Some (VData _) => true
             | None => false
             end && all rest
         end) items
  | _ => false
  end.

(** ** Attributes as stored *)

(** The attribute [k] of the object at [l] as it is stored, declared or
    not. *)
Definition attr (h : heap) (l : loc) (k : string) : option value :=
  match h !! l with
  | Some o => obj_attrs o !! k
  | None => None
  end.

(** Two runs, from [h] to [h'] and from [g] to [g'], made the same
    writes: each attribute was either left alone by both or ends with
    the same value in both. *)
Definition same_writes (h h' g g' : heap) : Prop :=
  ∀ l k, (attr h' l k = attr h l k ∧ attr g' l k = attr g l k) ∨
         attr h' l k = attr g' l k.

(** ** Reading an override tree *)

(** [overrides[k1][k2]...[kn]] *)
Fixpoint leaf_at (overrides : data) (p : list string) : option data :=
  match p with
  | [] => Some overrides
  | k :: p' =>
      match overrides with
      | DDict items =>
          match list_find (λ kv, kv.1 = k) items with
          | Some (_, (_, v)) => leaf_at v p'
          | None => None
          end
      | _ => None
      end
  end.

(** Every mapping of the override tree has each key once, as a Python
    [dict] does. *)
Fixpoint unique_keys (overrides : data) : bool :=
  match overrides with
  | DDict items =>
      bool_decide (NoDup items.*1) &&
      (fix all (items : list (string * data)) : bool :=
         match items with
         | [] => true
         | (_, v) :: rest => unique_keys v && all rest
         end) items
  | _ => true
  end.

(** ** Ownership *)

(** Everything reachable from [v] lives at an address in [[lo, hi)] and
    is reached by one path only. *)
Definition owned (lo hi : nat) (h : heap) (v : value) : Prop :=
  (∀ p l, path_val h v p = Some (VRef l) → lo ≤ l < hi) ∧
  (∀ p q l, path_val h v p = Some (VRef l) →
            path_val h v q = Some (VRef l) → p = q).

(** The fields [names] of the object at [self] own what they hold, in
    consecutive address ranges between [lo] and [hi]. *)
Fixpoint laid (lo : nat) (h : heap) (self : loc) (names : list string)
    (hi : nat) : Prop :=
  match names with
  | [] => lo ≤ hi
  | k :: rest =>
      ∃ mid v, lo ≤ mid ∧ field_val h self k = Some v ∧
               owned lo mid h v ∧ laid mid h self rest hi
  end.

(** What one iteration of a constructor loop establishes for the field
    [k] of [self], as to ownership. *)
Definition step_tree (self : loc) (c : class) (k : string)
    (h h' : heap) : Prop :=
  length h ≤ length h' ∧
  (∀ l, l < length h → l ≠ self → h' !! l = h !! l) ∧
  class_at h' self = Some c ∧
  (∀ k', k' ≠ k → field_val h' self k' = field_val h self k') ∧
  ∃ v, field_val h' self k = Some v ∧ owned (length h) (length h') h' v.

(** The same for a whole loop over the fields [names]. *)
Definition loop_tree (self : loc) (c : class) (names : list string)
    (h h' : heap) : Prop :=
  length h ≤ length h' ∧
  (∀ l, l < length h → l ≠ self → h' !! l = h !! l) ∧
  class_at h' self = Some c ∧
  (∀ k', k' ∉ names → field_val h' self k' = field_val h self k') ∧
  laid (length h) h' self names (length h').

(** What a caller sees along the path [p] in a default instance of the
    schema [c]. *)
Fixpoint default_at (c : class) (p : list string) : option seen :=
  match p with
  | [] => Some (SeenNode c)
  | k :: p' =>
      match list_find (λ f, fname f = k) (cfields c) with
      | Some (_, f) =>
          match f_default f with
          | DFactory c' => default_at c' p'
          | DValue d => match p' with [] => Some (SeenData d) | _ :: _ => None end
          end
      | None => None
      end
  end.

(** * Properties *)

(** ** The store primitives *)

Lemma bind_ok {A B} (m : M A) (k : A → M B) h a h' :
  m h = (inr a, h') → bind m k h = k a h'.
Proof. unfold bind. by intros ->. Qed.

Lemma for_each_cons {A} (body : A → M unit) x xs :
  for_each body (x :: xs) = bind (body x) (λ _, for_each body xs).
Proof. reflexivity. Qed.

Lemma declared_true c k : declared c k = true ↔ k ∈ field_names c.
Proof. unfold declared. by rewrite bool_decide_eq_true. Qed.

Lemma class_at_Some h l c :
  class_at h l = Some c ↔ ∃ o, h !! l = Some o ∧ obj_class o = c.
Proof.
  unfold class_at. destruct (h !! l) as [o|]; simpl; split.
  - intros [= <-]. eauto.
  - by intros (o' & [= <-] & <-).
  - done.
  - by intros (? & ? & _).
Qed.

Lemma class_at_lt h l c : class_at h l = Some c → l < length h.
Proof.
  intros (o & Ho & _)%class_at_Some. by eapply lookup_lt_Some.
Qed.

Lemma field_val_declared h l k v c :
  field_val h l k = Some v → class_at h l = Some c → k ∈ field_names c.
Proof.
  unfold field_val, class_at. destruct (h !! l) as [o|]; [|done]. simpl.
  intros Hv [= <-]. apply declared_true. by destruct (declared _ _).
Qed.

Lemma getattr_field_val h l k v :
  field_val h l k = Some v → getattr l k h = (inr v, h).
Proof.
  unfold field_val, getattr. destruct (h !! l) as [o|]; [|done].
  destruct (declared _ _); [|done]. by intros ->.
Qed.

Lemma getattr_inv h l k r h' :
  getattr l k h = (r, h') →
  h' = h ∧ ∀ v, r = inr v → field_val h l k = Some v.
Proof.
  unfold field_val, getattr. destruct (h !! l) as [o|].
  - destruct (declared _ _).
    + destruct (lookup_attr o k); intros [= <- <-]; split; congruence.
    + intros [= <- <-]. split; congruence.
  - intros [= <- <-]. split; congruence.
Qed.

Lemma setattr_ok h l k v c :
  class_at h l = Some c → k ∈ field_names c →
  ∃ h', setattr l k v h = (inr tt, h') ∧
        length h' = length h ∧
        same_but l h h' ∧
        class_at h' l = Some c ∧
        field_val h' l k = Some v ∧
        (∀ k', k' ≠ k → field_val h' l k' = field_val h l k').
Proof.
  intros (o & Ho & <-)%class_at_Some Hk%declared_true.
  pose proof (lookup_lt_Some _ _ _ Ho) as Hlt.
  unfold setattr. rewrite Ho Hk. eexists. split; [done|].
  split; [by rewrite length_insert|].
  split; [intros l' Hl'; by rewrite list_lookup_insert_ne|].
  unfold class_at, field_val. rewrite list_lookup_insert_eq //=.
  rewrite Hk Ho. split; [done|]. unfold lookup_attr. simpl.
  split; [by rewrite lookup_insert_eq|].
  intros k' Hk'. by rewrite lookup_insert_ne.
Qed.

Lemma same_but_class l h h' l' :
  same_but l h h' → l' ≠ l → class_at h' l' = class_at h l'.
Proof. intros Hs Hl. unfold class_at. by rewrite Hs. Qed.

Lemma same_but_field l h h' l' k :
  same_but l h h' → l' ≠ l → field_val h' l' k = field_val h l' k.
Proof. intros Hs Hl. unfold field_val. by rewrite Hs. Qed.

Lemma path_val_data h d p l : path_val h (VData d) p ≠ Some (VRef l).
Proof. by destruct p. Qed.

Lemma path_val_cons h l k p v :
  path_val h (VRef l) (k :: p) = Some v ↔
  ∃ v', field_val h l k = Some v' ∧ path_val h v' p = Some v.
Proof.
  simpl. destruct (field_val h l k) as [v'|]; split.
  - eauto.
  - by intros (? & [= <-] & ?).
  - done.
  - by intros (? & ? & _).
Qed.

Lemma path_val_snoc h v p k w :
  path_val h v (p ++ [k]) = Some w ↔
  ∃ l, path_val h v p = Some (VRef l) ∧ field_val h l k = Some w.
Proof.
  revert v. induction p as [|k' p IH]; intros v.
  - destruct v as [d|l]; simpl.
    + split; [done|]. by intros (? & [=] & _).
    + destruct (field_val h l k) as [v'|] eqn:E; split.
      * intros [= <-]. eauto.
      * intros (l' & [= <-] & Hw). congruence.
      * done.
      * intros (l' & [= <-] & Hw). congruence.
  - destruct v as [d|l]; simpl.
    + split; [done|]. by intros (? & ? & _).
    + destruct (field_val h l k'); [apply IH|].
      split; [done|]. by intros (? & ? & _).
Qed.

Lemma override_config_dict cfg items :
  override_config cfg (DDict items) =
  bind (for_each (λ '(key, value),
          bind (getattr cfg key) (λ cur,
            match cur with
            | VRef sub => bind (override_config sub value) (λ _, ret tt)
            | VData _ => setattr cfg key (VData value)
            end)) items) (λ _, ret cfg).
Proof. reflexivity. Qed.

Lemma override_config_item cfg k v h :
  override_config cfg (DDict [(k, v)]) h =
  match getattr cfg k h with
  | (inr (VRef sub), h0) =>
      match override_config sub v h0 with
      | (inr _, h1) => (inr cfg, h1)
      | (inl e, h1) => (inl e, h1)
      end
  | (inr (VData _), h0) =>
      match setattr cfg k (VData v) h0 with
      | (inr _, h1) => (inr cfg, h1)
      | (inl e, h1) => (inl e, h1)
      end
  | (inl e, h0) => (inl e, h0)
  end.
Proof.
  rewrite override_config_dict /= /bind.
  destruct (getattr cfg k h) as [[e|[d|sub]] h0]; [done| |].
  - by destruct (setattr _ _ _ h0) as [[e|[]] h1].
  - by destruct (override_config sub v h0) as [[e|r] h1].
Qed.

Lemma getattr_unknown h l c name :
  class_at h l = Some c → name ∉ field_names c →
  getattr l name h = (inl (UnknownFieldError (cname c) name), h).
Proof.
  intros (o & Ho & <-)%class_at_Some Hk. unfold getattr. rewrite Ho.
  destruct (declared _ _) eqn:E; [|done]. by apply declared_true in E.
Qed.

Lemma setattr_unknown h l c name v :
  class_at h l = Some c → name ∉ field_names c →
  setattr l name v h = (inl (UnknownFieldError (cname c) name), h).
Proof.
  intros (o & Ho & <-)%class_at_Some Hk. unfold setattr. rewrite Ho.
  destruct (declared _ _) eqn:E; [|done]. by apply declared_true in E.
Qed.

(** ** Strictness *)

(** C8.  Reading or writing a field name that the schema of a node does
    not declare fails with [UnknownFieldError] and leaves the store as it
    was; this holds for every node, whatever its depth.  Overriding with
    the mapping [{name: v}], or with a nested mapping that leads to such a
    name below the root, raises that error and changes no field. *)
Theorem unknown_field_rejected (h : heap) (l : loc) (c : class) (name : string) :
  class_at h l = Some c → name ∉ field_names c →
  getattr l name h = (inl (UnknownFieldError (cname c) name), h) ∧
  (∀ v, setattr l name v h = (inl (UnknownFieldError (cname c) name), h)) ∧
  (∀ v, override_config l (DDict [(name, v)]) h
        = (inl (UnknownFieldError (cname c) name), h)) ∧
  (∀ root p v,
     path_val h (VRef root) p = Some (VRef l) →
     override_config root (single (p ++ [name]) v) h
     = (inl (UnknownFieldError (cname c) name), h)).
Proof.
  intros Hc Hk.
  assert (Hone : ∀ v, override_config l (DDict [(name, v)]) h
                      = (inl (UnknownFieldError (cname c) name), h)).
  { intros v. by rewrite override_config_item (getattr_unknown _ _ c). }
  split; [by apply getattr_unknown|].
  split; [intros v; by apply setattr_unknown|].
  split; [done|].
  intros root p. revert root. induction p as [|k p IH]; intros root v Hp.
  - simpl in Hp. injection Hp as ->. apply Hone.
  - apply path_val_cons in Hp as (v' & Hv' & Hp).
    destruct v' as [d|sub]; [by apply path_val_data in Hp|].
    change (single ((k :: p) ++ [name]) v)
      with (DDict [(k, single (p ++ [name]) v)]).
    by rewrite override_config_item (getattr_field_val _ _ _ _ Hv') IH.
Qed.

Lemma unknown_field_rejected_witness :
  let C := Class "C" [Field "x" TPlain (DValue (DInt 5))] in
  let h := [Obj C {["x" := VData (DInt 5)]}] in
  override_config 0 (DDict [("not_a_field", DInt 1)]) h
  = (inl (UnknownFieldError "C" "not_a_field"), h).
Proof.
  intros C h.
  refine (proj1 (proj2 (proj2
    (unknown_field_rejected h 0 C "not_a_field" _ _))) (DInt 1)).
  - reflexivity.
  - vm_compute. intros H. by repeat (apply elem_of_cons in H as [H|H]; [done|]);
      apply elem_of_nil in H.
Defined.

(** ** Contents of a store *)

Lemma repr_node lo hi h v c kids :
  repr lo hi h v (Node c kids) ↔
  ∃ l, v = VRef l ∧ lo ≤ l < hi ∧ class_at h l = Some c ∧
       repr_kids lo hi h l kids.
Proof.
  simpl. f_equiv; intros l. do 3 f_equiv. unfold repr_kids.
  induction kids as [|[k t] kids IH]; simpl.
  - by rewrite Forall_nil.
  - by rewrite Forall_cons IH.
Qed.

Lemma repr_frame lo hi h h' v t :
  (∀ l, lo ≤ l < hi → h' !! l = h !! l) →
  repr lo hi h v t → repr lo hi h' v t.
Proof.
  intros Hsame. revert v. induction t as [d|c kids IH] using tree_ind; intros v.
  - done.
  - rewrite !repr_node. intros (l & -> & Hl & Hc & Hkids).
    exists l. split; [done|]. split; [done|].
    split; [by rewrite /class_at Hsame|].
    unfold repr_kids in *. rewrite ->Forall_forall in *.
    intros kt Hin. destruct (Hkids kt Hin) as (v' & Hv' & Hr).
    exists v'. split; [by rewrite /field_val Hsame|]. by apply IH.
Qed.

Lemma repr_mono lo hi lo' hi' h v t :
  lo' ≤ lo → hi ≤ hi' → repr lo hi h v t → repr lo' hi' h v t.
Proof.
  intros Hlo Hhi. revert v. induction t as [d|c kids IH] using tree_ind; intros v.
  - done.
  - rewrite !repr_node. intros (l & -> & Hl & Hc & Hkids).
    exists l. split; [done|]. split; [lia|]. split; [done|].
    unfold repr_kids in *. rewrite ->Forall_forall in *.
    intros kt Hin. destruct (Hkids kt Hin) as (v' & Hv' & Hr).
    exists v'. split; [done|]. by apply IH.
Qed.

(** ** Loops over the fields of an object *)

Lemma field_loop {A} (self : loc) (c : class) (body : A → M unit)
    (kid : A → string * tree) (xs : list A) :
  NoDup ((kid <$> xs).*1) →
  (∀ x h, x ∈ xs → class_at h self = Some c →
     ∃ h', body x h = (inr tt, h') ∧
           step_post self c (kid x).1 (kid x).2 h h') →
  ∀ h, class_at h self = Some c →
    ∃ h', for_each body xs h = (inr tt, h') ∧
          loop_post self c (kid <$> xs) h h'.
Proof.
  induction xs as [|x xs IH]; intros Hnd Hstep h Hc.
  - exists h. split; [done|]. unfold loop_post. repeat split; try done.
    by apply Forall_nil.
  - rewrite !fmap_cons in Hnd. apply NoDup_cons in Hnd as [Hx Hnd].
    destruct (Hstep x h) as (h1 & Hrun1 & Hlen1 & Hold1 & Hc1 & Hoth1 & v & Hv & Hr);
      [by left|done|].
    destruct (IH Hnd) with (h := h1) as (h2 & Hrun2 & Hlen2 & Hold2 & Hc2 & Hoth2 & Hkids);
      [intros; apply Hstep; [by right|done]|done|].
    pose proof (class_at_lt _ _ _ Hc) as Hself.
    exists h2. split.
    { rewrite for_each_cons. by erewrite bind_ok. }
    unfold loop_post. split; [lia|]. split.
    { intros l Hl Hne. rewrite Hold2; [by apply Hold1|lia|done]. }
    split; [done|]. split.
    { intros k' Hk'. rewrite !fmap_cons in Hk'.
      apply not_elem_of_cons in Hk' as [Hk1 Hk2].
      rewrite Hoth2 //. by apply Hoth1. }
    rewrite fmap_cons. apply Forall_cons. split.
    + exists v. split; [by rewrite Hoth2|].
      apply repr_mono with (length h) (length h1); [lia..|].
      eapply repr_frame; [|done]. intros l Hl. apply Hold2; lia.
    + eapply Forall_impl; [done|]. intros kt (v' & Hv' & Hr').
      exists v'. split; [done|]. eapply repr_mono; [| |done]; lia.
Qed.

Lemma wf_class_inv c :
  wf_class c = true →
  NoDup (field_names c) ∧
  ∀ f, f ∈ cfields c →
    match f_type f with TData c' => wf_class c' = true | TPlain => True end ∧
    match f_default f with DFactory c' => wf_class c' = true | DValue _ => True end.
Proof.
  destruct c as [n fs]. simpl.
  intros [Hnd Hall]%andb_true_iff. split; [by apply bool_decide_eq_true in Hnd|].
  intros f Hf. rewrite forallb_forall in Hall.
  apply list_elem_of_In, Hall, andb_true_iff in Hf as [H1 H2].
  split; [by destruct (f_type f)|by destruct (f_default f)].
Qed.

Lemma repr_kids_mono lo hi lo' hi' h l kids :
  lo' ≤ lo → hi ≤ hi' → repr_kids lo hi h l kids → repr_kids lo' hi' h l kids.
Proof.
  intros Hlo Hhi Hk. eapply Forall_impl; [exact Hk|]. intros kt (v & Hv & Hr).
  exists v. split; [done|]. by eapply repr_mono.
Qed.

Lemma kids_names {A} (kid : A → string * tree) (name : A → string) xs :
  (∀ x, (kid x).1 = name x) → (kid <$> xs).*1 = name <$> xs.
Proof.
  intros Hk. rewrite -list_fmap_compose. apply list_fmap_ext.
  intros _ x _. apply Hk.
Qed.

(** ** Construction *)

(** [cls()] returns a new object, leaves every older object alone, and
    the new object holds the defaults of its schema. *)
Lemma new_spec c :
  wf_class c = true →
  ∀ h, ∃ h',
    new c h = (inr (length h), h') ∧
    length h < length h' ∧
    (∀ l, l < length h → h' !! l = h !! l) ∧
    repr (length h) (length h') h' (VRef (length h)) (default_tree c).
Proof.
  induction c as [n fs IH] using class_ind. intros Hwf h.
  apply wf_class_inv in Hwf as [Hnd Hwf]. simpl in Hwf.
  set (c := Class n fs) in *. set (self := length h).
  set (h0 := h ++ [Obj c ∅]).
  assert (Hc0 : class_at h0 self = Some c).
  { by rewrite /class_at /h0 /self lookup_app_r // Nat.sub_diag. }
  set (kid := λ f, (fname f,
                    match f_default f with
                    | DFactory c' => default_tree c'
                    | DValue d => Leaf d
                    end)).
  destruct (field_loop self c
    (λ f, bind (match f_default f with
                | DValue d => ret (VData d)
                | DFactory c' => bind (new c') (λ sub, ret (VRef sub))
                end) (λ v, setattr self (fname f) v)) kid fs) with (h := h0)
    as (h' & Hrun & Hlen & Hold & Hc & _ & Hkids); [| |done|].
  { by rewrite (kids_names kid fname). }
  { intros f h1 Hf Hc1. pose proof (class_at_lt _ _ _ Hc1) as Hself.
    assert (Hname : fname f ∈ field_names c).
    { apply list_elem_of_fmap. eauto. }
    destruct (Hwf f Hf) as [_ Hwfd]. rewrite ->Forall_forall in IH.
    destruct (IH f Hf) as [_ IHd]. unfold kid. simpl.
    destruct (f_default f) as [d|c'].
    - destruct (setattr_ok h1 self (fname f) (VData d) c)
        as (h2 & Hset & Hlen2 & Hsame & Hc2 & Hv & Hoth); [done..|].
      exists h2. split; [by erewrite bind_ok|].
      split; [lia|]. split; [intros; by apply Hsame|].
      split; [done|]. split; [done|]. by exists (VData d).
    - destruct (IHd Hwfd h1) as (h2 & Hnew & Hlen2 & Hold2 & Hrepr).
      destruct (setattr_ok h2 self (fname f) (VRef (length h1)) c)
        as (h3 & Hset & Hlen3 & Hsame & Hc3 & Hv & Hoth).
      { by rewrite /class_at Hold2. }
      { done. }
      exists h3. split.
      { erewrite bind_ok; [done|]. by erewrite bind_ok. }
      split; [lia|]. split.
      { intros l Hl Hne. rewrite Hsame //. by apply Hold2. }
      split; [done|]. split.
      { intros k' Hk'. rewrite Hoth // /field_val. by rewrite Hold2. }
      exists (VRef (length h1)). split; [done|]. rewrite Hlen3.
      eapply repr_frame; [|done]. intros l Hl. apply Hsame. lia. }
  exists h'. assert (length h0 = S (length h)) as Hlen0.
  { rewrite /h0 length_app /=. lia. }
  split.
  { change (new c) with (bind (alloc c) (λ self,
      bind (for_each (λ f, bind (match f_default f with
                | DValue d => ret (VData d)
                | DFactory c' => bind (new c') (λ sub, ret (VRef sub))
                end) (λ v, setattr self (fname f) v)) (cfields c))
        (λ _, ret self))).
    erewrite bind_ok; [|done]. by erewrite bind_ok. }
  split; [lia|]. split.
  { intros l Hl. rewrite Hold; [by rewrite /h0 lookup_app_l|unfold self; lia..]. }
  change (default_tree c) with (Node c (kid <$> fs)).
  apply repr_node. exists self. split; [done|]. split; [unfold self; lia|].
  split; [done|]. eapply repr_kids_mono; [| |done]; lia.
Qed.

Lemma repr_class lo hi h l c :
  repr lo hi h (VRef l) (default_tree c) → class_at h l = Some c.
Proof. destruct c. intros (l' & [= <-] & _ & Hc & _)%repr_node. done. Qed.

(** ** init_empty *)

(** [init_empty] on an object of class [c] returns that object, changes
    no other object that existed before, and leaves the object holding
    the all-[MISSING] template of [c], whose nested nodes were all
    allocated during the call. *)
Lemma init_empty_cls_spec MISSING c :
  wf_class c = true →
  ∀ cfg h, class_at h cfg = Some c →
    ∃ h', init_empty_cls MISSING c cfg h = (inr cfg, h') ∧
          loop_post cfg c (kids_of (blank_tree MISSING c)) h h'.
Proof.
  induction c as [n fs IH] using class_ind. intros Hwf self h Hc0.
  apply wf_class_inv in Hwf as [Hnd Hwf]. simpl in Hwf.
  set (c := Class n fs) in *.
  set (kid := λ f, (fname f,
                    match f_type f with
                    | TData c' => blank_tree MISSING c'
                    | TPlain => Leaf MISSING
                    end)).
  change (kids_of (blank_tree MISSING c)) with (kid <$> fs).
  destruct (field_loop self c
    (λ f, match f_type f with
          | TData c' =>
              bind (new c') (λ fresh,
                bind (init_empty_cls MISSING c' fresh) (λ sub,
                  setattr self (fname f) (VRef sub)))
          | TPlain => setattr self (fname f) (VData MISSING)
          end) kid fs) with (h := h)
    as (h' & Hrun & Hpost); [| |done|].
  { by rewrite (kids_names kid fname). }
  { intros f h1 Hf Hc1. pose proof (class_at_lt _ _ _ Hc1) as Hself.
    assert (Hname : fname f ∈ field_names c).
    { apply list_elem_of_fmap. eauto. }
    destruct (Hwf f Hf) as [Hwft _]. rewrite ->Forall_forall in IH.
    destruct (IH f Hf) as [IHt _]. unfold kid. simpl.
    destruct (f_type f) as [|c'].
    - destruct (setattr_ok h1 self (fname f) (VData MISSING) c)
        as (h2 & Hset & Hlen2 & Hsame & Hc2 & Hv & Hoth); [done..|].
      exists h2. split; [done|].
      split; [lia|]. split; [intros; by apply Hsame|].
      split; [done|]. split; [done|]. by exists (VData MISSING).
    - destruct (new_spec c' Hwft h1) as (h2 & Hnew & Hlen2 & Hold2 & Hrepr2).
      apply repr_class in Hrepr2.
      destruct (IHt Hwft (length h1) h2 Hrepr2)
        as (h3 & Hinit & Hlen3 & Hold3 & Hc3 & _ & Hkids3).
      assert (Hself3 : h3 !! self = h1 !! self).
      { rewrite Hold3; [by apply Hold2|lia..]. }
      destruct (setattr_ok h3 self (fname f) (VRef (length h1)) c)
        as (h4 & Hset & Hlen4 & Hsame & Hc4 & Hv & Hoth).
      { by rewrite /class_at Hself3. }
      { done. }
      exists h4. split.
      { erewrite bind_ok; [|done]. by erewrite bind_ok. }
      split; [lia|]. split.
      { intros l Hl Hne. rewrite Hsame // Hold3; [by apply Hold2|lia..]. }
      split; [done|]. split.
      { intros k' Hk'. rewrite Hoth // /field_val. by rewrite Hself3. }
      exists (VRef (length h1)). split; [done|]. rewrite Hlen4.
      apply repr_frame with h3; [intros l Hl; apply Hsame; lia|].
      destruct c' as [n' fs']. apply repr_node. exists (length h1).
      split; [done|]. split; [lia|]. split; [done|].
      eapply repr_kids_mono; [| |done]; lia. }
  exists h'. split; [|done].
  change (init_empty_cls MISSING c self) with
    (bind (for_each (λ f, match f_type f with
          | TData c' =>
              bind (new c') (λ fresh,
                bind (init_empty_cls MISSING c' fresh) (λ sub,
                  setattr self (fname f) (VRef sub)))
          | TPlain => setattr self (fname f) (VData MISSING)
          end) (cfields c)) (λ _, ret self)).
  by erewrite bind_ok.
Qed.

Lemma type_of_class_at h l c :
  class_at h l = Some c → type_of l h = (inr c, h).
Proof. intros (o & Ho & <-)%class_at_Some. by rewrite /type_of Ho. Qed.

Lemma init_empty_spec MISSING c cfg h :
  wf_class c = true → class_at h cfg = Some c →
  ∃ h', init_empty MISSING cfg h = (inr cfg, h') ∧
        loop_post cfg c (kids_of (blank_tree MISSING c)) h h'.
Proof.
  intros Hwf Hc.
  destruct (init_empty_cls_spec MISSING c Hwf cfg h Hc) as (h' & Hrun & Hpost).
  exists h'. split; [|done]. unfold init_empty.
  erewrite bind_ok; [done|]. by apply type_of_class_at.
Qed.

Lemma blank_kid MISSING lo hi h l c k :
  class_at h l = Some c →
  repr_kids lo hi h l (kids_of (blank_tree MISSING c)) →
  match list_find (λ f, fname f = k) (cfields c) with
  | Some (_, f) =>
      ∃ v, field_val h l k = Some v ∧
           repr lo hi h v match f_type f with
                          | TData c' => blank_tree MISSING c'
                          | TPlain => Leaf MISSING
                          end
  | None => field_val h l k = None
  end.
Proof.
  intros Hc Hkids. destruct c as [n fs]. simpl in *.
  destruct (list_find _ fs) as [[i f]|] eqn:E.
  - apply list_find_Some in E as (Hi & <- & _).
    unfold repr_kids in Hkids. rewrite ->Forall_fmap, Forall_forall in Hkids.
    apply (Hkids f). by eapply list_elem_of_lookup_2.
  - destruct (field_val h l k) as [v|] eqn:Hv; [|done].
    eapply field_val_declared in Hv; [|done].
    apply list_elem_of_fmap in Hv as (f & -> & Hf).
    rewrite ->list_find_None, Forall_forall in E. by destruct (E f Hf).
Qed.

Lemma blank_path MISSING lo hi h p :
  ∀ c v, repr lo hi h v (blank_tree MISSING c) →
         blank_at MISSING lo hi h v c p.
Proof.
  induction p as [|k p IH]; intros c v Hr.
  - destruct c as [n fs]. apply repr_node in Hr as (l & -> & Hl & Hc & _).
    exists l. done.
  - assert (∃ l, v = VRef l ∧ class_at h l = Some c ∧
                 repr_kids lo hi h l (kids_of (blank_tree MISSING c)))
      as (l & -> & Hc & Hkids).
    { destruct c as [n fs]. apply repr_node in Hr as (l & -> & _ & Hc & Hk).
      eauto. }
    pose proof (blank_kid MISSING lo hi h l c k Hc Hkids) as Hkid.
    unfold blank_at. simpl.
    destruct (list_find _ (cfields c)) as [[i f]|].
    + destruct Hkid as (v & -> & Hv). destruct (f_type f) as [|c'].
      * simpl in Hv. subst v. by destruct p.
      * apply (IH c' v Hv).
    + by rewrite Hkid.
Qed.

(** After [init_empty], every non-empty path from the root reads what
    the template prescribes, at addresses that did not exist before. *)
Lemma init_empty_paths MISSING c cfg (h h' : heap) k p :
  class_at h' cfg = Some c →
  repr_kids (length h) (length h') h' cfg (kids_of (blank_tree MISSING c)) →
  blank_at MISSING (length h) (length h') h' (VRef cfg) c (k :: p).
Proof.
  intros Hc Hkids.
  pose proof (blank_kid MISSING _ _ h' cfg c k Hc Hkids) as Hkid.
  unfold blank_at. simpl.
  destruct (list_find _ (cfields c)) as [[i f]|].
  - destruct Hkid as (v & -> & Hv). destruct (f_type f) as [|c'].
    + simpl in Hv. subst v. by destruct p.
    + apply (blank_path MISSING _ _ h' p c' v Hv).
  - by rewrite Hkid.
Qed.

Lemma init_empty_observe MISSING c cfg (h h' : heap) p :
  class_at h' cfg = Some c →
  repr_kids (length h) (length h') h' cfg (kids_of (blank_tree MISSING c)) →
  observe h' cfg p = template MISSING c p.
Proof.
  intros Hc Hkids. destruct p as [|k p].
  - by rewrite /observe /template /= Hc.
  - pose proof (init_empty_paths MISSING c cfg h h' k p Hc Hkids) as Hb.
    unfold blank_at, observe, template in *.
    destruct (schema_at c (k :: p)) as [[|c']|].
    + by rewrite Hb.
    + destruct Hb as (l & -> & _ & ->). done.
    + by rewrite Hb.
Qed.

(** C3.  On a node of any schema [c], [init_empty] returns the node it
    was given, and afterwards every path of field names reads what the
    all-[MISSING] template of [c] prescribes: [MISSING] at every plain
    field at every depth, an instance of the declared class (a node,
    not [MISSING]) at every field declared with a dataclass type. *)
Theorem init_empty_blanks_every_leaf (MISSING : data) (c : class) (cfg : loc) (h : heap) :
  wf_class c = true → class_at h cfg = Some c →
  ∃ h', init_empty MISSING cfg h = (inr cfg, h') ∧
        ∀ p, observe h' cfg p = template MISSING c p.
Proof.
  intros Hwf Hc.
  destruct (init_empty_spec MISSING c cfg h Hwf Hc)
    as (h' & Hrun & _ & _ & Hc' & _ & Hkids).
  exists h'. split; [done|]. intros p. by eapply init_empty_observe.
Qed.

(** ** override_config: what it can change *)

Lemma same_shape_refl h : same_shape h h.
Proof.
  split; [done|]. intros l k. destruct (field_val h l k) as [[d|l2]|]; eauto.
Qed.

Lemma same_shape_trans h1 h2 h3 :
  same_shape h1 h2 → same_shape h2 h3 → same_shape h1 h3.
Proof.
  intros [Hc1 Hf1] [Hc2 Hf2]. split; [intros l; by rewrite Hc2|].
  intros l k. specialize (Hf1 l k). specialize (Hf2 l k).
  destruct (field_val h1 l k) as [[d|l2]|].
  - destruct Hf1 as [d' Hf1]. by rewrite Hf1 in Hf2.
  - by rewrite Hf1 in Hf2.
  - by rewrite Hf1 in Hf2.
Qed.

Lemma same_shape_ref h h' l k l2 :
  same_shape h h' →
  field_val h l k = Some (VRef l2) ↔ field_val h' l k = Some (VRef l2).
Proof.
  intros [_ Hf]. specialize (Hf l k). split.
  - intros E. by rewrite E in Hf.
  - intros E. destruct (field_val h l k) as [[d|l3]|].
    + destruct Hf as [d' Hf]. congruence.
    + congruence.
    + congruence.
Qed.

Lemma same_shape_path h h' v q l :
  same_shape h h' →
  path_val h v q = Some (VRef l) ↔ path_val h' v q = Some (VRef l).
Proof.
  intros Hs. revert v. induction q as [|k q IH]; intros v; [done|].
  destruct v as [d|l0]; [done|]. rewrite !path_val_cons. split.
  - intros (v' & Hv' & Hp). destruct v' as [d|l1]; [by apply path_val_data in Hp|].
    exists (VRef l1). split; [by apply (same_shape_ref h h')|by apply IH].
  - intros (v' & Hv' & Hp). destruct v' as [d|l1]; [by apply path_val_data in Hp|].
    exists (VRef l1). split; [by apply (same_shape_ref h h')|by apply IH].
Qed.

(** Overwriting a plain value with a plain value. *)
Lemma setattr_data h l k d d' :
  field_val h l k = Some (VData d) →
  ∃ h', setattr l k (VData d') h = (inr tt, h') ∧
        same_shape h h' ∧
        field_val h' l k = Some (VData d') ∧
        ∀ l' k', (l' = l ∧ k' = k → False) →
                 field_val h' l' k' = field_val h l' k'.
Proof.
  intros Hv. destruct (class_at h l) as [c|] eqn:Hc.
  2: { unfold field_val, class_at in *. by destruct (h !! l). }
  destruct (setattr_ok h l k (VData d') c Hc)
    as (h' & Hset & Hlen & Hsame & Hc' & Hk & Hoth);
    [by eapply field_val_declared|].
  assert (Hframe : ∀ l' k', (l' = l ∧ k' = k → False) →
                            field_val h' l' k' = field_val h l' k').
  { intros l' k' Hne. destruct (decide (l' = l)) as [->|Hl].
    - apply Hoth. naive_solver.
    - by apply (same_but_field l). }
  exists h'. split; [done|]. split; [|done]. split.
  - intros l'. destruct (decide (l' = l)) as [->|Hl]; [congruence|].
    by apply (same_but_class l).
  - intros l' k'. destruct (decide (l' = l ∧ k' = k)) as [[-> ->]|Hne].
    + rewrite Hv. eauto.
    + rewrite Hframe //. destruct (field_val h l' k') as [[?|?]|]; eauto.
Qed.

Lemma mentioned_dict_cons k v rest k' p :
  mentioned (DDict ((k, v) :: rest)) (k' :: p)
  = (bool_decide (k = k') && mentioned v p) || mentioned (DDict rest) (k' :: p).
Proof. reflexivity. Qed.

Lemma untouched_head h cfg k v rest sub l k0 :
  field_val h cfg k = Some (VRef sub) →
  untouched h cfg (DDict ((k, v) :: rest)) l k0 →
  untouched h sub v l k0.
Proof.
  intros Hsub Hu q Hq. specialize (Hu (k :: q)).
  rewrite /= Hsub in Hu. specialize (Hu Hq).
  apply orb_false_iff in Hu as [Hu _].
  rewrite bool_decide_eq_true_2 // in Hu.
Qed.

Lemma untouched_tail h h1 cfg kv rest l k0 :
  same_shape h h1 →
  untouched h cfg (DDict (kv :: rest)) l k0 →
  untouched h1 cfg (DDict rest) l k0.
Proof.
  intros Hs Hu q Hq. apply (same_shape_path h h1) in Hq; [|done].
  specialize (Hu q Hq). destruct kv as [k v].
  destruct (q ++ [k0]) as [|k' p] eqn:E; [by destruct q|].
  rewrite mentioned_dict_cons in Hu. by apply orb_false_iff in Hu as [_ Hu].
Qed.

Lemma untouched_self h cfg k v rest :
  untouched h cfg (DDict ((k, v) :: rest)) cfg k → False.
Proof.
  intros Hu. specialize (Hu [] eq_refl). simpl in Hu.
  rewrite bool_decide_eq_true_2 // in Hu. by destruct v.
Qed.

Lemma override_step cfg key value rest h r h1 :
  (∀ sub h r h',
     override_config sub value h = (r, h') →
     same_shape h h' ∧
     ∀ l k, untouched h sub value l k → field_val h' l k = field_val h l k) →
  bind (getattr cfg key) (λ cur,
    match cur with
    | VRef sub => bind (override_config sub value) (λ _, ret tt)
    | VData _ => setattr cfg key (VData value)
    end) h = (r, h1) →
  same_shape h h1 ∧
  ∀ l k, untouched h cfg (DDict ((key, value) :: rest)) l k →
         field_val h1 l k = field_val h l k.
Proof.
  intros IH. unfold bind at 1.
  destruct (getattr cfg key h) as [[e|cur] h0] eqn:Hget;
    apply getattr_inv in Hget as [-> Hcur].
  { intros [= <- <-]. split; [apply same_shape_refl|done]. }
  specialize (Hcur cur eq_refl). destruct cur as [d|sub].
  - destruct (setattr_data h cfg key d value Hcur)
      as (h2 & -> & Hs & _ & Hframe).
    intros [= <- <-]. split; [done|]. intros l k Hu. apply Hframe.
    intros [-> ->]. by eapply untouched_self.
  - unfold bind.
    destruct (override_config sub value h) as [[e|r1] h2] eqn:Hrec;
      apply IH in Hrec as [Hs Hframe]; intros [= <- <-];
      (split; [done|]); intros l k Hu; apply Hframe;
      by eapply untouched_head.
Qed.

(** [override_config] keeps every object, class and reference of the
    store, and changes no field that the override tree does not name;
    this holds whether it returns or raises. *)
Lemma override_config_frame overrides :
  ∀ cfg h r h',
    override_config cfg overrides h = (r, h') →
    same_shape h h' ∧
    ∀ l k, untouched h cfg overrides l k → field_val h' l k = field_val h l k.
Proof.
  induction overrides as [| | | | | |items IH] using data_ind;
    try (intros cfg h r h' [= <- <-]; split; [apply same_shape_refl|done]).
  intros cfg h r h'. rewrite override_config_dict. unfold bind at 1.
  set (body := λ '(key, value), bind (getattr cfg key) _).
  assert (Hloop : ∀ h r h',
    for_each body items h = (r, h') →
    same_shape h h' ∧
    ∀ l k, untouched h cfg (DDict items) l k →
           field_val h' l k = field_val h l k).
  { clear h r h'. induction items as [|[key value] rest IHrest];
      intros h r h'.
    - intros [= <- <-]. split; [apply same_shape_refl|done].
    - apply Forall_cons in IH as [IHv IH]. simpl in IHv.
      rewrite for_each_cons. unfold bind at 1.
      destruct (body (key, value) h) as [[e|[]] h1] eqn:Hbody;
        apply (override_step cfg key value rest _ _ _ IHv) in Hbody
          as [Hs1 Hf1].
      + by intros [= <- <-].
      + intros Hrest. apply (IHrest IH) in Hrest as [Hs2 Hf2].
        split; [by eapply same_shape_trans|].
        intros l k Hu. rewrite Hf2; [by apply Hf1|by eapply untouched_tail]. }
  destruct (for_each body items h) as [[e|[]] h1] eqn:Hrun;
    apply Hloop in Hrun; by intros [= <- <-].
Qed.

(** ** Sparsity of override_config *)

(** C4.  Whatever [override_config(node, overrides)] does, and whether
    it returns or raises, a field that [overrides] does not name at the
    corresponding depth holds afterwards the value it held before: for
    every object and field such that no path from the node to the object
    followed by the field name appears in [overrides]; and, when the
    node is a tree (each node owns its children), for every path of
    field names that does not appear in [overrides]. *)
Theorem override_config_sparse (cfg : loc) (overrides : data) (h h' : heap) (r : exn + loc) :
  override_config cfg overrides h = (r, h') →
  (∀ l k, untouched h cfg overrides l k →
          field_val h' l k = field_val h l k) ∧
  (is_tree h cfg →
   ∀ p, mentioned overrides p = false →
        path_val h' (VRef cfg) p = path_val h (VRef cfg) p).
Proof.
  intros Hrun. apply override_config_frame in Hrun as [Hs Hframe].
  split; [done|]. intros Htree p Hp.
  destruct p as [|k0 p0] using rev_ind; [done|]. clear IHp0.
  apply option_eq. intros w. rewrite !path_val_snoc.
  split; intros (l & Hq & Hw); exists l.
  - apply (same_shape_path h h') in Hq; [|done]. split; [done|].
    rewrite -Hframe //. intros q Hq'. by rewrite (Htree q p0 l).
  - split; [by apply (same_shape_path h h')|].
    rewrite Hframe //. intros q Hq'. by rewrite (Htree q p0 l).
Qed.

(** ** The example store *)

Example demo_heap_built : new Root [] = (inr 0, demo_heap).
Proof. vm_compute. reflexivity. Qed.

Lemma demo_field_root k v :
  field_val demo_heap 0 k = Some v →
  (k = "x" ∧ v = VData (DInt 5)) ∨ (k = "sub" ∧ v = VRef 1).
Proof.
  intros Hv. pose proof (field_val_declared demo_heap 0 k v Root Hv eq_refl) as Hk.
  apply elem_of_cons in Hk as [->|Hk]; [left|right].
  - split; [done|]. vm_compute in Hv. congruence.
  - apply elem_of_cons in Hk as [->|Hk]; [|by apply elem_of_nil in Hk].
    split; [done|]. vm_compute in Hv. congruence.
Qed.

Lemma demo_field_sub k v :
  field_val demo_heap 1 k = Some v → ∃ d, v = VData d.
Proof.
  intros Hv. pose proof (field_val_declared demo_heap 1 k v Sub Hv eq_refl) as Hk.
  apply elem_of_cons in Hk as [->|Hk].
  - vm_compute in Hv. injection Hv as <-. eauto.
  - apply elem_of_cons in Hk as [->|Hk]; [|by apply elem_of_nil in Hk].
    vm_compute in Hv. injection Hv as <-. eauto.
Qed.

Lemma demo_paths q l :
  path_val demo_heap (VRef 0) q = Some (VRef l) →
  (q = [] ∧ l = 0) ∨ (q = ["sub"] ∧ l = 1).
Proof.
  destruct q as [|k q]; [intros [= <-]; by left|].
  intros (v & Hv & Hq)%path_val_cons. right.
  apply demo_field_root in Hv as [[-> ->]|[-> ->]];
    [by apply path_val_data in Hq|].
  destruct q as [|k' q]; [by injection Hq as <-|].
  apply path_val_cons in Hq as (v & Hv & Hq).
  apply demo_field_sub in Hv as [d ->]. by apply path_val_data in Hq.
Qed.

Lemma demo_is_tree : is_tree demo_heap 0.
Proof.
  intros q1 q2 l H1 H2.
  apply demo_paths in H1 as [[-> ->]|[-> ->]];
    apply demo_paths in H2 as [[-> ?]|[-> ?]]; done.
Qed.

Lemma override_config_sparse_witness :
  let overrides := DDict [("sub", DDict [("y", DInt 3)])] in
  let h' := (override_config 0 overrides demo_heap).2 in
  path_val h' (VRef 0) ["sub"; "z"] = Some (VData (DInt 2)) ∧
  path_val h' (VRef 0) ["x"] = Some (VData (DInt 5)).
Proof.
  intros overrides h'.
  pose proof (override_config_sparse 0 overrides demo_heap h'
                (override_config 0 overrides demo_heap).1
                (surjective_pairing _)) as [_ Hsparse].
  split.
  - rewrite (Hsparse demo_is_tree ["sub"; "z"]); reflexivity.
  - rewrite (Hsparse demo_is_tree ["x"]); reflexivity.
Defined.

Lemma init_empty_blanks_every_leaf_witness :
  ∃ h', init_empty demo_missing 0 demo_heap = (inr 0, h') ∧
        ∀ p, observe h' 0 p = template demo_missing Root p.
Proof.
  apply (init_empty_blanks_every_leaf demo_missing Root 0 demo_heap);
    reflexivity.
Defined.

(** ** Idempotence *)

(** C7.  A second [init_empty] on the same node succeeds again, and the
    tree it leaves reads, along every path of field names, exactly as
    the tree left by the first call: [MISSING] at every plain field, an
    instance of the declared class at every nested slot. *)
Theorem init_empty_idempotent (MISSING : data) (c : class) (cfg : loc) (h : heap) :
  wf_class c = true → class_at h cfg = Some c →
  ∃ h1 h2,
    init_empty MISSING cfg h = (inr cfg, h1) ∧
    init_empty MISSING cfg h1 = (inr cfg, h2) ∧
    ∀ p, observe h2 cfg p = observe h1 cfg p ∧
         observe h1 cfg p = template MISSING c p.
Proof.
  intros Hwf Hc.
  destruct (init_empty_spec MISSING c cfg h Hwf Hc)
    as (h1 & Hrun1 & _ & _ & Hc1 & _ & Hkids1).
  destruct (init_empty_spec MISSING c cfg h1 Hwf Hc1)
    as (h2 & Hrun2 & _ & _ & Hc2 & _ & Hkids2).
  exists h1, h2. split; [done|]. split; [done|]. intros p.
  rewrite (init_empty_observe MISSING c cfg h h1) //.
  by rewrite (init_empty_observe MISSING c cfg h1 h2).
Qed.

Lemma init_empty_idempotent_witness :
  ∃ h1 h2,
    init_empty demo_missing 0 demo_heap = (inr 0, h1) ∧
    init_empty demo_missing 0 h1 = (inr 0, h2) ∧
    ∀ p, observe h2 0 p = observe h1 0 p ∧
         observe h1 0 p = template demo_missing Root p.
Proof.
  apply (init_empty_idempotent demo_missing Root 0 demo_heap); reflexivity.
Defined.

(** ** Aliasing *)

Lemma setattr_same_but l k v h r h' :
  setattr l k v h = (r, h') → same_but l h h'.
Proof.
  unfold setattr. destruct (h !! l) as [o|]; [|by intros [= <- <-]].
  destruct (declared _ _); intros [= <- <-]; [|done].
  intros l' Hl'. by rewrite list_lookup_insert_ne.
Qed.

(** C9.  [init_empty] shares no nested node with the tree it was given:
    it returns the node it was given and changes no other object that
    existed before the call, and every nested node of the returned tree
    was newly constructed during the call, so a write to a field of such
    a node changes no object that existed before. *)
Theorem init_empty_nested_nodes_fresh (MISSING : data) (c : class) (cfg : loc) (h : heap) :
  wf_class c = true → class_at h cfg = Some c →
  ∃ h',
    init_empty MISSING cfg h = (inr cfg, h') ∧
    (∀ l, l < length h → l ≠ cfg → h' !! l = h !! l) ∧
    ∀ p l, p ≠ [] → path_val h' (VRef cfg) p = Some (VRef l) →
      length h ≤ l ∧
      ∀ k v r h'', setattr l k v h' = (r, h'') →
        ∀ l0, l0 < length h → h'' !! l0 = h' !! l0.
Proof.
  intros Hwf Hc.
  destruct (init_empty_spec MISSING c cfg h Hwf Hc)
    as (h' & Hrun & _ & Hold & Hc' & _ & Hkids).
  exists h'. split; [done|]. split; [done|].
  intros [|k0 p] l Hp Hl; [done|].
  pose proof (init_empty_paths MISSING c cfg h h' k0 p Hc' Hkids) as Hb.
  unfold blank_at in Hb.
  assert (length h ≤ l) as Hfresh.
  { destruct (schema_at c (k0 :: p)) as [[|c']|]; [congruence| |congruence].
    destruct Hb as (l' & Hl' & Hrange & _). assert (l = l') by congruence. lia. }
  split; [done|]. intros k v r h'' Hset l0 Hl0.
  apply (setattr_same_but _ _ _ _ _ _ Hset). lia.
Qed.

Lemma init_empty_nested_nodes_fresh_witness :
  ∃ h',
    init_empty demo_missing 0 demo_heap = (inr 0, h') ∧
    (∀ l, l < length demo_heap → l ≠ 0 → h' !! l = demo_heap !! l) ∧
    ∀ p l, p ≠ [] → path_val h' (VRef 0) p = Some (VRef l) →
      length demo_heap ≤ l ∧
      ∀ k v r h'', setattr l k v h' = (r, h'') →
        ∀ l0, l0 < length demo_heap → h'' !! l0 = h' !! l0.
Proof.
  apply (init_empty_nested_nodes_fresh demo_missing Root 0 demo_heap);
    reflexivity.
Defined.

(** ** Dispatch on the declared type *)

Lemma override_plain_field h cfg k d v :
  field_val h cfg k = Some (VData d) →
  ∃ h', override_config cfg (DDict [(k, v)]) h = (inr cfg, h') ∧
        same_shape h h' ∧
        field_val h' cfg k = Some (VData v) ∧
        ∀ l' k', (l' = cfg ∧ k' = k → False) →
                 field_val h' l' k' = field_val h l' k'.
Proof.
  intros Hv.
  destruct (setattr_data h cfg k d v Hv) as (h' & Hset & Hrest).
  exists h'. split; [|done].
  by rewrite override_config_item (getattr_field_val _ _ _ _ Hv) Hset.
Qed.

Lemma schema_at_cons c k p c' :
  schema_at c [k] = Some (TData c') →
  schema_at c (k :: p) = schema_at c' p.
Proof.
  simpl. destruct (list_find _ _) as [[i f]|]; [|done].
  destruct (f_type f); [done|]. by intros [= ->].
Qed.

(** C10.  [init_empty] looks at the declared type of a field, not at
    what the field holds: a field declared with a dataclass type [c']
    ends up holding a newly allocated, blanked instance of [c'],
    whatever it held before, in particular when it held [MISSING] or any
    other plain value.  [override_config] looks at the stored value
    instead: on such a field holding a plain value it stores the
    override value, of whatever shape, in the field itself. *)
Theorem init_empty_follows_declared_type (MISSING : data) (c c' : class) (cfg : loc) (h : heap) (k : string) :
  wf_class c = true → class_at h cfg = Some c →
  schema_at c [k] = Some (TData c') →
  (∃ h' l,
     init_empty MISSING cfg h = (inr cfg, h') ∧
     field_val h' cfg k = Some (VRef l) ∧
     length h ≤ l ∧
     ∀ p, observe h' l p = template MISSING c' p) ∧
  (∀ d v, field_val h cfg k = Some (VData d) →
     ∃ h'', override_config cfg (DDict [(k, v)]) h = (inr cfg, h'') ∧
            field_val h'' cfg k = Some (VData v)).
Proof.
  intros Hwf Hc Hk. split.
  - destruct (init_empty_spec MISSING c cfg h Hwf Hc)
      as (h' & Hrun & _ & _ & Hc' & _ & Hkids).
    pose proof (init_empty_paths MISSING c cfg h h' k [] Hc' Hkids) as Hb.
    unfold blank_at in Hb. rewrite Hk in Hb.
    destruct Hb as (l & Hl & Hrange & Hcl).
    assert (Hf : field_val h' cfg k = Some (VRef l)).
    { simpl in Hl. by destruct (field_val h' cfg k). }
    exists h', l. split; [done|]. split; [done|]. split; [lia|].
    intros p.
    pose proof (init_empty_observe MISSING c cfg h h' (k :: p) Hc' Hkids) as Ho.
    rewrite /template (schema_at_cons c k p c') // in Ho.
    by rewrite /observe /= Hf in Ho.
  - intros d v Hv.
    destruct (override_plain_field h cfg k d v Hv) as (h'' & Hrun & _ & Hf & _).
    eauto.
Qed.

Lemma init_empty_follows_declared_type_witness :
  let h := <[0 := Obj Root {["x" := VData (DInt 5);
                            "sub" := VData demo_missing]}]> demo_heap in
  field_val h 0 "sub" = Some (VData demo_missing) ∧
  (∃ h' l,
     init_empty demo_missing 0 h = (inr 0, h') ∧
     field_val h' 0 "sub" = Some (VRef l) ∧
     length h ≤ l ∧
     ∀ p, observe h' l p = template demo_missing Sub p) ∧
  (∀ d v, field_val h 0 "sub" = Some (VData d) →
     ∃ h'', override_config 0 (DDict [("sub", v)]) h = (inr 0, h'') ∧
            field_val h'' 0 "sub" = Some (VData v)).
Proof.
  intros h. split; [reflexivity|].
  apply (init_empty_follows_declared_type demo_missing Root Sub 0 h "sub");
    reflexivity.
Defined.

(** ** init_empty followed by override_config *)

Lemma override_single p :
  ∀ cfg h d v,
    p ≠ [] → path_val h (VRef cfg) p = Some (VData d) →
    ∃ h', override_config cfg (single p v) h = (inr cfg, h') ∧
          path_val h' (VRef cfg) p = Some (VData v).
Proof.
  induction p as [|k p IH]; intros cfg h d v Hne Hp; [done|].
  apply path_val_cons in Hp as (v' & Hv' & Hp).
  destruct p as [|k2 p].
  - injection Hp as ->.
    destruct (override_plain_field h cfg k d v Hv') as (h' & Hrun & _ & Hf & _).
    exists h'. split; [done|]. by rewrite /= Hf.
  - destruct v' as [d'|sub]; [done|].
    destruct (IH sub h d v) as (h' & Hrun & Hp'); [done..|].
    exists h'. pose proof Hv' as Hv0.
    pose proof (override_config_frame _ _ _ _ _ Hrun) as [Hs _].
    apply (same_shape_ref h h') in Hv'; [|done]. split.
    + change (single (k :: k2 :: p) v) with (DDict [(k, single (k2 :: p) v)]).
      by rewrite override_config_item (getattr_field_val _ _ _ _ Hv0) Hrun.
    + apply path_val_cons. eauto.
Qed.

(** C6.  After [init_empty], every slot declared with a dataclass type
    holds a dataclass instance, and every plain field holds [MISSING],
    which is not a dataclass instance.  A following [override_config]
    with the nested mapping that leads to a plain field therefore
    descends through the nested nodes and stores the override value in
    that field. *)
Theorem override_after_init_empty (MISSING : data) (c : class) (cfg : loc) (h : heap) (p : list string) (v : data) :
  wf_class c = true → class_at h cfg = Some c →
  schema_at c p = Some TPlain →
  ∃ h1 h2,
    init_empty MISSING cfg h = (inr cfg, h1) ∧
    (∀ q c', schema_at c q = Some (TData c') →
       ∃ l, path_val h1 (VRef cfg) q = Some (VRef l) ∧
            is_dataclass (VRef l) = true ∧ class_at h1 l = Some c') ∧
    path_val h1 (VRef cfg) p = Some (VData MISSING) ∧
    is_dataclass (VData MISSING) = false ∧
    override_config cfg (single p v) h1 = (inr cfg, h2) ∧
    path_val h2 (VRef cfg) p = Some (VData v).
Proof.
  intros Hwf Hc Hp.
  destruct (init_empty_spec MISSING c cfg h Hwf Hc)
    as (h1 & Hrun & _ & _ & Hc1 & _ & Hkids).
  assert (Hleaf : path_val h1 (VRef cfg) p = Some (VData MISSING)).
  { destruct p as [|k p]; [done|].
    pose proof (init_empty_paths MISSING c cfg h h1 k p Hc1 Hkids) as Hb.
    unfold blank_at in Hb. by rewrite Hp in Hb. }
  destruct (override_single p cfg h1 MISSING v) as (h2 & Hrun2 & Hp2);
    [by destruct p|done|].
  exists h1, h2. split; [done|]. split; [|done].
  intros [|k q] c' Hq.
  - injection Hq as <-. by exists cfg.
  - pose proof (init_empty_paths MISSING c cfg h h1 k q Hc1 Hkids) as Hb.
    unfold blank_at in Hb. rewrite Hq in Hb.
    destruct Hb as (l & Hl & _ & Hcl). by exists l.
Qed.

Lemma override_after_init_empty_witness :
  ∃ h1 h2,
    init_empty demo_missing 0 demo_heap = (inr 0, h1) ∧
    (∀ q c', schema_at Root q = Some (TData c') →
       ∃ l, path_val h1 (VRef 0) q = Some (VRef l) ∧
            is_dataclass (VRef l) = true ∧ class_at h1 l = Some c') ∧
    path_val h1 (VRef 0) ["sub"; "y"] = Some (VData demo_missing) ∧
    is_dataclass (VData demo_missing) = false ∧
    override_config 0 (single ["sub"; "y"] (DInt 3)) h1 = (inr 0, h2) ∧
    path_val h2 (VRef 0) ["sub"; "y"] = Some (VData (DInt 3)).
Proof.
  apply (override_after_init_empty demo_missing Root 0 demo_heap
           ["sub"; "y"] (DInt 3)); reflexivity.
Defined.

(** ** Nested application *)

Lemma override_nested_leaf h cfg s l y d v :
  field_val h cfg s = Some (VRef l) →
  field_val h l y = Some (VData d) →
  ∃ h', override_config cfg (DDict [(s, DDict [(y, v)])]) h = (inr cfg, h') ∧
        field_val h' cfg s = Some (VRef l) ∧
        field_val h' l y = Some (VData v) ∧
        ∀ l' k', (l' = l ∧ k' = y → False) →
                 field_val h' l' k' = field_val h l' k'.
Proof.
  intros Hs Hy.
  destruct (override_plain_field h l y d v Hy) as (h' & Hrun & Hshape & Hv & Hoth).
  exists h'. split; [|split; [|done]].
  - by rewrite override_config_item (getattr_field_val _ _ _ _ Hs) Hrun.
  - by apply (same_shape_ref h h').
Qed.

(** A default [Config()] holds a default [OptimizerConfig] in [opt]. *)
Lemma default_config_opt MISSING A1 A2 A3 A4 A5 A6 A7 (h : heap) :
  wf_class (Config MISSING A1 A2 A3 A4 A5 A6 A7) = true →
  ∃ h0 l,
    new (Config MISSING A1 A2 A3 A4 A5 A6 A7) h = (inr (length h), h0) ∧
    field_val h0 (length h) "opt" = Some (VRef l) ∧
    field_val h0 l "learning_rate" = Some (VData (DFloat 1e-4)) ∧
    field_val h0 l "weight_decay" = Some (VData (DFloat 1e-8)).
Proof.
  intros Hwf. destruct (new_spec _ Hwf h) as (h0 & Hnew & _ & _ & Hrepr).
  apply repr_node in Hrepr as (cfg & [= <-] & _ & _ & Hkids).
  eapply (Forall_lookup_1 _ _ 21) in Hkids; [|reflexivity].
  destruct Hkids as (v & Hopt & Hv). simpl in Hopt.
  apply repr_node in Hv as (l & -> & _ & _ & Hkids).
  pose proof (Forall_lookup_1 _ _ 1 _ Hkids eq_refl) as (v1 & Hlr & ->).
  pose proof (Forall_lookup_1 _ _ 3 _ Hkids eq_refl) as (v3 & Hwd & ->).
  by exists h0, l.
Qed.

(** C5.  When [node.sub] is a nested node whose field [y] holds a plain
    value, [override_config(node, {sub: {y: v}})] returns the node,
    leaves [node.sub] the same nested node, sets [node.sub.y] to [v] and
    changes no other field of any object.  On a default [Config()],
    overriding [opt.learning_rate] with [5e-5] yields that value there
    and leaves [opt.weight_decay] at its default [1e-8]. *)
Theorem override_config_nested_leaf (MISSING : data) (AlgoConfig ModelConfig ReplayConfig TasksConfig ConditionalsConfig VinaConfig Boltz2Config : class) (h : heap) (cfg l : loc) (s y : string) (d v : data) :
  (field_val h cfg s = Some (VRef l) →
   field_val h l y = Some (VData d) →
   ∃ h', override_config cfg (DDict [(s, DDict [(y, v)])]) h = (inr cfg, h') ∧
         path_val h' (VRef cfg) [s; y] = Some (VData v) ∧
         field_val h' cfg s = Some (VRef l) ∧
         ∀ l' k', (l' = l ∧ k' = y → False) →
                  field_val h' l' k' = field_val h l' k') ∧
  (let Config := Config MISSING AlgoConfig ModelConfig ReplayConfig
                   TasksConfig ConditionalsConfig VinaConfig Boltz2Config in
   wf_class Config = true →
   ∃ h0 root h',
     new Config h = (inr root, h0) ∧
     override_config root
       (DDict [("opt", DDict [("learning_rate", DFloat 5e-5)])]) h0
     = (inr root, h') ∧
     path_val h' (VRef root) ["opt"; "learning_rate"]
     = Some (VData (DFloat 5e-5)) ∧
     path_val h' (VRef root) ["opt"; "weight_decay"]
     = Some (VData (DFloat 1e-8))).
Proof.
  split.
  - intros Hs Hy.
    destruct (override_nested_leaf h cfg s l y d v Hs Hy)
      as (h' & Hrun & Hs' & Hy' & Hoth).
    exists h'. split; [done|]. split; [|done]. by rewrite /= Hs' Hy'.
  - intros C Hwf.
    destruct (default_config_opt _ _ _ _ _ _ _ _ h Hwf)
      as (h0 & lo & Hnew & Hopt & Hlr & Hwd).
    destruct (override_nested_leaf h0 (length h) "opt" lo "learning_rate"
                _ (DFloat 5e-5) Hopt Hlr)
      as (h' & Hrun & Hs' & Hy' & Hoth).
    exists h0, (length h), h'. split; [done|]. split; [done|].
    rewrite /= Hs' Hy'. split; [done|].
    rewrite Hoth; [by rewrite Hwd|]. by intros [_ [=]].
Qed.

Lemma override_config_nested_leaf_witness :
  let E := Class "Empty" [] in
  let Config := Config demo_missing E E E E E E E in
  (∃ h', override_config 0 (DDict [("sub", DDict [("y", DInt 3)])]) demo_heap
         = (inr 0, h') ∧
         path_val h' (VRef 0) ["sub"; "y"] = Some (VData (DInt 3)) ∧
         field_val h' 0 "sub" = Some (VRef 1) ∧
         ∀ l' k', (l' = 1 ∧ k' = "y" → False) →
                  field_val h' l' k' = field_val demo_heap l' k') ∧
  (∃ h0 root h',
     new Config demo_heap = (inr root, h0) ∧
     override_config root
       (DDict [("opt", DDict [("learning_rate", DFloat 5e-5)])]) h0
     = (inr root, h') ∧
     path_val h' (VRef root) ["opt"; "learning_rate"]
     = Some (VData (DFloat 5e-5)) ∧
     path_val h' (VRef root) ["opt"; "weight_decay"]
     = Some (VData (DFloat 1e-8))).
Proof.
  intros E C.
  destruct (override_config_nested_leaf demo_missing E E E E E E E
              demo_heap 0 1 "sub" "y" (DInt 1) (DInt 3)) as [H1 H2].
  split; [apply H1; reflexivity|apply H2; vm_compute; reflexivity].
Defined.

(** ** Shape mismatches *)

Lemma override_non_mapping cfg v h :
  (∀ m, v ≠ DDict m) → override_config cfg v h = (inl AttributeError, h).
Proof. intros Hv. destruct v; try done. by destruct (Hv items). Qed.

Lemma override_raises_in_loop cfg key v sub items :
  (key, v) ∈ items → (∀ m, v ≠ DDict m) →
  ∀ h, field_val h cfg key = Some (VRef sub) →
       ∃ e h', override_config cfg (DDict items) h = (inl e, h').
Proof.
  intros Hin Hv h Hsub. rewrite override_config_dict. unfold bind at 1.
  set (body := λ '(key, value), bind (getattr cfg key) _).
  enough (∃ e h', for_each body items h = (inl e, h')) as (e & h' & ->) by eauto.
  revert h Hsub. induction items as [|[k0 v0] rest IH]; intros h Hsub.
  { by apply elem_of_nil in Hin. }
  rewrite for_each_cons. unfold bind at 1.
  destruct (body (k0, v0) h) as [[e|[]] h1] eqn:Hbody; [eauto|].
  apply elem_of_cons in Hin as [[= <- <-]|Hin].
  - exfalso. revert Hbody. unfold body, bind.
    by rewrite (getattr_field_val _ _ _ _ Hsub) override_non_mapping.
  - apply IH; [done|].
    apply (override_step cfg k0 v0 rest) in Hbody as [Hs _];
      [|intros; by eapply override_config_frame].
    by apply (same_shape_ref h h1).
Qed.

(** C1 as written fails: overriding a field that holds a plain
    value with a mapping raises nothing, the mapping becomes the value
    of the field; and a non-mapping value for a field that holds a
    nested node raises [AttributeError]. *)
Lemma mapping_over_scalar_is_stored :
  ∃ h',
    field_val demo_heap 0 "x" = Some (VData (DInt 5)) ∧
    override_config 0 (DDict [("x", DDict [("a", DInt 1)])]) demo_heap
    = (inr 0, h') ∧
    field_val h' 0 "x" = Some (VData (DDict [("a", DInt 1)])) ∧
    override_config 0 (DDict [("sub", DInt 3)]) demo_heap
    = (inl AttributeError, demo_heap).
Proof.
  eexists. split; [reflexivity|]. split; [vm_compute; reflexivity|].
  split; vm_compute; reflexivity.
Qed.

(** C1, amended.  When the field [key] of the node holds a nested node
    and the override value for [key] is not a mapping,
    [override_config] raises: [AttributeError], with the store
    untouched, when [key] comes first, and some exception wherever
    [key] stands in the mapping.  When the field holds a plain value and
    the override value is a mapping, nothing is raised and the mapping
    is stored in the field. *)
Theorem shape_mismatch_behaviour (h : heap) (cfg : loc) (key : string) :
  (∀ sub v rest,
     field_val h cfg key = Some (VRef sub) → (∀ m, v ≠ DDict m) →
     override_config cfg (DDict ((key, v) :: rest)) h
     = (inl AttributeError, h)) ∧
  (∀ sub v items,
     field_val h cfg key = Some (VRef sub) → (∀ m, v ≠ DDict m) →
     (key, v) ∈ items →
     ∃ e h', override_config cfg (DDict items) h = (inl e, h')) ∧
  (∀ d m,
     field_val h cfg key = Some (VData d) →
     ∃ h', override_config cfg (DDict [(key, DDict m)]) h = (inr cfg, h') ∧
           field_val h' cfg key = Some (VData (DDict m))).
Proof.
  split; [|split].
  - intros sub v rest Hsub Hv.
    rewrite override_config_dict for_each_cons /bind.
    by rewrite (getattr_field_val _ _ _ _ Hsub) override_non_mapping.
  - intros sub v items Hsub Hv Hin. by eapply override_raises_in_loop.
  - intros d m Hd.
    destruct (override_plain_field h cfg key d (DDict m) Hd)
      as (h' & Hrun & _ & Hf & _). eauto.
Qed.

Lemma shape_mismatch_behaviour_witness :
  override_config 0 (DDict [("sub", DInt 3); ("x", DInt 6)]) demo_heap
  = (inl AttributeError, demo_heap) ∧
  (∃ e h', override_config 0 (DDict [("x", DInt 6); ("sub", DInt 3)]) demo_heap
           = (inl e, h')) ∧
  (∃ h', override_config 0 (DDict [("x", DDict [("a", DInt 1)])]) demo_heap
         = (inr 0, h') ∧
         field_val h' 0 "x" = Some (VData (DDict [("a", DInt 1)]))).
Proof.
  destruct (shape_mismatch_behaviour demo_heap 0 "sub") as (H1 & H2 & _).
  destruct (shape_mismatch_behaviour demo_heap 0 "x") as (_ & _ & H3).
  split; [|split].
  - apply (H1 1); [reflexivity|done].
  - apply (H2 1 (DInt 3)); [reflexivity|done|].
    apply elem_of_cons. right. apply elem_of_cons. by left.
  - apply (H3 (DInt 5)). reflexivity.
Defined.

(** ** The recursion of init_empty, as the source writes it *)

Lemma for_each_ext {A} (f g : A → M unit) xs h :
  (∀ x h, x ∈ xs → f x h = g x h) → for_each f xs h = for_each g xs h.
Proof.
  revert h. induction xs as [|x xs IH]; intros h Hfg; [done|].
  rewrite !for_each_cons /bind Hfg; [|by left].
  destruct (g x h) as [[e|[]] h1]; [done|].
  apply IH. intros; apply Hfg. by right.
Qed.

(** On an object of class [c], [init_empty] runs the loop of the source
    with the recursive call being [init_empty] itself on the new
    object. *)
Lemma init_empty_unfold MISSING c cfg h :
  wf_class c = true → class_at h cfg = Some c →
  init_empty MISSING cfg h =
  bind (for_each (λ f,
      match f_type f with
      | TData c' =>
          bind (new c') (λ fresh,
            bind (init_empty MISSING fresh) (λ sub,
              setattr cfg (fname f) (VRef sub)))
      | TPlain => setattr cfg (fname f) (VData MISSING)
      end) (cfields c)) (λ _, ret cfg) h.
Proof.
  intros Hwf Hc. unfold init_empty at 1.
  erewrite bind_ok; [|by apply type_of_class_at].
  destruct c as [n fs]. simpl. unfold bind at 1 3. f_equal.
  erewrite for_each_ext; [done|]. intros f h1 Hf. cbv beta.
  apply wf_class_inv in Hwf as [_ Hwf]. destruct (Hwf f Hf) as [Hwft _].
  destruct (f_type f) as [|c']; [done|].
  destruct (new_spec c' Hwft h1) as (h2 & Hnew & _ & _ & Hrepr).
  apply repr_class in Hrepr. rewrite /bind Hnew.
  by rewrite /init_empty /bind (type_of_class_at _ _ _ Hrepr).
Qed.

Example init_empty_demo :
  init_empty demo_missing 0 demo_heap =
  (inr 0, [
     Obj Root {["x" := VData demo_missing; "sub" := VRef 2]};
     Obj Sub {["y" := VData (DInt 1); "z" := VData (DInt 2)]};
     Obj Sub {["y" := VData demo_missing; "z" := VData demo_missing]}
   ]).
Proof. vm_compute. reflexivity. Qed.

Example override_config_demo :
  override_config 0 (DDict [("x", DInt 7); ("sub", DDict [("y", DInt 3)])])
    demo_heap =
  (inr 0, [
     Obj Root {["x" := VData (DInt 7); "sub" := VRef 1]};
     Obj Sub {["y" := VData (DInt 3); "z" := VData (DInt 2)]}
   ]).
Proof. vm_compute. reflexivity. Qed.

(** An exception does not undo the writes made before it. *)
Example override_config_partial :
  override_config 0 (DDict [("x", DInt 7); ("not_a_field", DInt 1)])
    demo_heap =
  (inl (UnknownFieldError "Root" "not_a_field"), [
     Obj Root {["x" := VData (DInt 7); "sub" := VRef 1]};
     Obj Sub {["y" := VData (DInt 1); "z" := VData (DInt 2)]}
   ]).
Proof. vm_compute. reflexivity. Qed.

(** * Further properties *)

(** ** override_config keeps the shape of the store *)

Lemma same_shape_length h h' : same_shape h h' → length h' = length h.
Proof.
  intros [Hc _].
  assert (∀ (a b : heap), (∀ l, class_at a l = class_at b l) →
                          length a ≤ length b) as Hle.
  { intros a b Hab. destruct (decide (length a ≤ length b)); [done|].
    specialize (Hab (length b)). unfold class_at in Hab.
    rewrite (lookup_ge_None_2 b) // in Hab.
    destruct (lookup_lt_is_Some_2 a (length b)) as [o Ho]; [lia|].
    by rewrite Ho in Hab. }
  apply Nat.le_antisymm; apply Hle; intros l; by rewrite Hc.
Qed.

Lemma same_shape_is_Some h h' l k :
  same_shape h h' → is_Some (field_val h l k) ↔ is_Some (field_val h' l k).
Proof.
  intros [_ Hf]. specialize (Hf l k).
  destruct (field_val h l k) as [[d|l2]|].
  - destruct Hf as [d' ->]. split; eauto.
  - rewrite Hf. split; eauto.
  - rewrite Hf. split; intros [? [=]].
Qed.

(** X1.  Whether it returns or raises, [override_config] creates and
    removes no object, changes the class of none, and never changes
    which nested node a field refers to: a field refers to a node after
    the call exactly when it referred to that node before, and a field
    can be read after the call exactly when it could be read before. *)
Theorem override_config_keeps_shape (cfg : loc) (overrides : data) (h h' : heap) (r : exn + loc) :
  override_config cfg overrides h = (r, h') →
  length h' = length h ∧
  (∀ l, class_at h' l = class_at h l) ∧
  (∀ l k sub, field_val h l k = Some (VRef sub) ↔
              field_val h' l k = Some (VRef sub)) ∧
  (∀ l k, is_Some (field_val h l k) ↔ is_Some (field_val h' l k)).
Proof.
  intros Hrun. apply override_config_frame in Hrun as [Hs _].
  split; [by apply same_shape_length|]. split; [apply Hs|].
  split; intros l k; [intros sub; by apply same_shape_ref|].
  by apply same_shape_is_Some.
Qed.

Lemma override_config_keeps_shape_witness :
  let overrides := DDict [("x", DDict [("a", DInt 1)]); ("sub", DInt 3)] in
  let h' := (override_config 0 overrides demo_heap).2 in
  length h' = length demo_heap ∧
  field_val h' 0 "sub" = Some (VRef 1).
Proof.
  intros overrides h'.
  destruct (override_config_keeps_shape 0 overrides demo_heap h'
              (override_config 0 overrides demo_heap).1
              (surjective_pairing _)) as (Hlen & _ & Href & _).
  split; [done|]. by apply Href.
Defined.

(** ** Mappings applied one after the other *)

Lemma for_each_app {A} (body : A → M unit) xs ys h :
  for_each body (xs ++ ys) h =
  match for_each body xs h with
  | (inr _, h1) => for_each body ys h1
  | (inl e, h1) => (inl e, h1)
  end.
Proof.
  revert h. induction xs as [|x xs IH]; intros h; [done|].
  rewrite -app_comm_cons !for_each_cons /bind.
  destruct (body x h) as [[e|[]] h1]; [done|]. apply IH.
Qed.

Lemma override_config_run cfg items h :
  override_config cfg (DDict items) h =
  match for_each (λ '(key, value),
          bind (getattr cfg key) (λ cur,
            match cur with
            | VRef sub => bind (override_config sub value) (λ _, ret tt)
            | VData _ => setattr cfg key (VData value)
            end)) items h with
  | (inr _, h1) => (inr cfg, h1)
  | (inl e, h1) => (inl e, h1)
  end.
Proof. by rewrite override_config_dict. Qed.

Lemma override_config_concat cfg a b h :
  override_config cfg (DDict (a ++ b)) h =
  match override_config cfg (DDict a) h with
  | (inr _, h1) => override_config cfg (DDict b) h1
  | (inl e, h1) => (inl e, h1)
  end.
Proof.
  rewrite !override_config_run for_each_app.
  destruct (for_each _ a h) as [[e|[]] h1]; [done|].
  by rewrite override_config_run.
Qed.

(** X2.  Overriding with a mapping whose items are those of [a]
    followed by those of [b] is overriding with [a] and then, if that
    returned, with [b]; if [a] raises, the exception and the store are
    those of [a] alone and no item of [b] is looked at. *)
Theorem override_config_app (cfg : loc) (a b : list (string * data)) (h : heap) :
  override_config cfg (DDict (a ++ b)) h =
  match override_config cfg (DDict a) h with
  | (inr _, h1) => override_config cfg (DDict b) h1
  | (inl e, h1) => (inl e, h1)
  end.
Proof.
  rewrite !override_config_run for_each_app.
  destruct (for_each _ a h) as [[e|[]] h1]; [done|].
  by rewrite override_config_run.
Qed.

(** ** When override_config returns *)

Lemma acceptable_cons h cfg k v rest :
  acceptable h cfg (DDict ((k, v) :: rest)) =
  match field_val h cfg k with
  | Some (VRef sub) => acceptable h sub v
  | Some (VData _) => true
  | None => false
  end && acceptable h cfg (DDict rest).
Proof. reflexivity. Qed.

Lemma acceptable_shape overrides :
  ∀ h g cfg, same_shape h g →
             acceptable g cfg overrides = acceptable h cfg overrides.
Proof.
  induction overrides as [| | | | | |items IH] using data_ind; try done.
  intros h g cfg Hs. induction items as [|[k v] rest IHrest]; [done|].
  apply Forall_cons in IH as [IHv IH]. simpl in IHv.
  rewrite !acceptable_cons (IHrest IH). f_equal.
  pose proof (proj2 Hs cfg k) as Hf.
  destruct (field_val h cfg k) as [[d|sub]|] eqn:Hk.
  - by destruct Hf as [d' ->].
  - rewrite Hf. by apply IHv.
  - by rewrite Hf.
Qed.

Lemma getattr_unreadable h l k :
  field_val h l k = None → ∃ e, getattr l k h = (inl e, h).
Proof.
  unfold field_val, getattr. destruct (h !! l) as [o|]; [|eauto].
  destruct (declared _ _); [|eauto]. intros ->. eauto.
Qed.

Lemma override_config_outcome overrides :
  ∀ cfg h,
    if acceptable h cfg overrides
    then ∃ h', override_config cfg overrides h = (inr cfg, h')
    else ∃ e h', override_config cfg overrides h = (inl e, h').
Proof.
  induction overrides as [| | | | | |items IH] using data_ind;
    try (intros cfg h; simpl; by eauto).
  intros cfg h. rewrite override_config_run.
  set (body := λ '(key, value), bind (getattr cfg key) _).
  enough (if acceptable h cfg (DDict items)
          then ∃ h', for_each body items h = (inr tt, h')
          else ∃ e h', for_each body items h = (inl e, h')) as Hloop.
  { destruct (acceptable h cfg (DDict items)).
    - destruct Hloop as [h' ->]. eauto.
    - destruct Hloop as (e & h' & ->). eauto. }
  revert h. induction items as [|[k v] rest IHrest]; intros h.
  { simpl. eauto. }
  apply Forall_cons in IH as [IHv IH]. simpl in IHv.
  specialize (IHrest IH). rewrite acceptable_cons for_each_cons /bind.
  destruct (field_val h cfg k) as [[d|sub]|] eqn:Hk.
  - rewrite /body /bind (getattr_field_val _ _ _ _ Hk).
    destruct (setattr_data h cfg k d v Hk) as (h1 & -> & Hs & _).
    specialize (IHrest h1). by rewrite (acceptable_shape _ h h1) in IHrest.
  - rewrite /body /bind (getattr_field_val _ _ _ _ Hk).
    specialize (IHv sub h). destruct (acceptable h sub v).
    + destruct IHv as [h1 Hrun]. rewrite Hrun. simpl.
      apply override_config_frame in Hrun as [Hs _].
      specialize (IHrest h1). by rewrite (acceptable_shape _ h h1) in IHrest.
    + destruct IHv as (e & h1 & ->). simpl. eauto.
  - destruct (getattr_unreadable h cfg k Hk) as [e He].
    rewrite /body /bind He. simpl. eauto.
Qed.

(** X3.  [override_config] returns normally exactly when the override
    tree fits the store: it is a mapping, every key is a declared field
    of the node it addresses that can be read (assigned on the instance,
    or left on the class as a plain default), and every key whose field
    holds a nested node carries a mapping that fits that node.  When it
    returns, it returns the node it was given. *)
Theorem override_config_returns_iff (cfg : loc) (overrides : data) (h : heap) :
  (acceptable h cfg overrides = true ↔
   ∃ h', override_config cfg overrides h = (inr cfg, h')) ∧
  (acceptable h cfg overrides = false ↔
   ∃ e h', override_config cfg overrides h = (inl e, h')) ∧
  (∀ r h', override_config cfg overrides h = (inr r, h') → r = cfg).
Proof.
  pose proof (override_config_outcome overrides cfg h) as Hout.
  destruct (acceptable h cfg overrides).
  - destruct Hout as [h1 Hrun]. split; [split; eauto|].
    split; [split; [done|]|]; rewrite Hrun.
    + by intros (e & h' & [=]).
    + by intros r h' [= <- <-].
  - destruct Hout as (e & h1 & Hrun). split; [split; [done|]|].
    + rewrite Hrun. by intros (h' & [=]).
    + split; [split; eauto|]. rewrite Hrun. by intros r h' [=].
Qed.

(** ** The outcome depends on the shape of the store only *)

Lemma same_shape_sym h g : same_shape h g → same_shape g h.
Proof.
  intros [Hc Hf]. split; [done|]. intros l k. specialize (Hf l k).
  destruct (field_val h l k) as [[d|l2]|].
  - destruct Hf as [d' ->]. eauto.
  - by rewrite Hf.
  - by rewrite Hf.
Qed.

Lemma same_shape_square h g h1 g1 :
  same_shape h g → same_shape h h1 → same_shape g g1 → same_shape h1 g1.
Proof.
  intros Hs H1 H2. apply (same_shape_trans h1 h g1).
  - by apply same_shape_sym.
  - by apply (same_shape_trans h g g1).
Qed.

Lemma getattr_shape h g l k :
  same_shape h g →
  match field_val h l k with
  | Some (VRef sub) =>
      getattr l k h = (inr (VRef sub), h) ∧
      getattr l k g = (inr (VRef sub), g)
  | Some (VData d) =>
      ∃ d', getattr l k h = (inr (VData d), h) ∧
            getattr l k g = (inr (VData d'), g) ∧
            field_val g l k = Some (VData d')
  | None => ∃ e, getattr l k h = (inl e, h) ∧ getattr l k g = (inl e, g)
  end.
Proof.
  intros [Hc Hf]. specialize (Hf l k). specialize (Hc l).
  destruct (field_val h l k) as [[d|sub]|] eqn:Hk.
  - destruct Hf as [d' Hf]. exists d'.
    split; [by apply getattr_field_val|]. split; [by apply getattr_field_val|done].
  - split; by apply getattr_field_val.
  - revert Hk Hf Hc. unfold field_val, getattr, class_at.
    destruct (h !! l) as [o|], (g !! l) as [o'|]; simpl; try done; [|eauto].
    intros Hk Hf [= Hc]. rewrite Hc. rewrite Hc in Hf.
    destruct (declared (obj_class o) k); [|eauto].
    rewrite Hk Hf. eauto.
Qed.

Lemma setattr_attr h l k v h' :
  setattr l k v h = (inr tt, h') →
  attr h' l k = Some v ∧
  ∀ l' k', (l' = l ∧ k' = k → False) → attr h' l' k' = attr h l' k'.
Proof.
  unfold setattr, attr. destruct (h !! l) as [o|] eqn:Ho; [|done].
  destruct (declared _ _); [|done]. intros [= <-].
  pose proof (lookup_lt_Some _ _ _ Ho) as Hlt. split.
  - by rewrite list_lookup_insert_eq //= lookup_insert_eq.
  - intros l' k' Hne. destruct (decide (l' = l)) as [->|Hl].
    + rewrite list_lookup_insert_eq //= Ho lookup_insert_ne //. naive_solver.
    + by rewrite list_lookup_insert_ne.
Qed.

Lemma same_writes_refl h g : same_writes h h g g.
Proof. intros l k. by left. Qed.

Lemma same_writes_trans h h1 h2 g g1 g2 :
  same_writes h h1 g g1 → same_writes h1 h2 g1 g2 → same_writes h h2 g g2.
Proof.
  intros H1 H2 l k. destruct (H2 l k) as [[Ha Hb]|Hc]; [|by right].
  destruct (H1 l k) as [[Ha' Hb']|Hc']; [left; split|right]; congruence.
Qed.

Lemma override_config_on_shape overrides :
  ∀ cfg h g r h',
    same_shape h g →
    override_config cfg overrides h = (r, h') →
    ∃ g', override_config cfg overrides g = (r, g') ∧ same_writes h h' g g'.
Proof.
  induction overrides as [| | | | | |items IH] using data_ind;
    try (intros cfg h g r h' _ [= <- <-]; eexists; split; [done|];
         by apply same_writes_refl).
  intros cfg h g r h' Hs. rewrite !override_config_run.
  set (body := λ '(key, value), bind (getattr cfg key) _).
  enough (∀ h g r h', same_shape h g → for_each body items h = (r, h') →
            ∃ g', for_each body items g = (r, g') ∧ same_writes h h' g g')
    as Hloop.
  { destruct (for_each body items h) as [[e|[]] h1] eqn:Hrun;
      destruct (Hloop _ _ _ _ Hs Hrun) as (g1 & -> & Hw);
      intros [= <- <-]; eauto. }
  clear h g r h' Hs. induction items as [|[k v] rest IHrest];
    intros h g r h' Hs.
  { intros [= <- <-]. exists g. split; [done|]. apply same_writes_refl. }
  apply Forall_cons in IH as [IHv IH]. simpl in IHv.
  specialize (IHrest IH). rewrite !for_each_cons /bind.
  pose proof (getattr_shape h g cfg k Hs) as Hget.
  destruct (field_val h cfg k) as [[d|sub]|] eqn:Hk.
  - destruct Hget as (d' & Hgh & Hgg & Hk').
    rewrite /body /bind Hgh Hgg.
    destruct (setattr_data h cfg k d v Hk) as (h1 & Hset & Hs1 & _).
    destruct (setattr_data g cfg k d' v Hk') as (g1 & Hset' & Hs1' & _).
    rewrite Hset Hset'. intros Hrest.
    destruct (IHrest h1 g1 r h') as (g' & Hrun' & Hw); [|exact Hrest|].
    { by apply (same_shape_square h g). }
    exists g'. split; [exact Hrun'|]. eapply same_writes_trans; [|done].
    apply setattr_attr in Hset as [Ha Hoth], Hset' as [Ha' Hoth'].
    intros l k'. destruct (decide (l = cfg ∧ k' = k)) as [[-> ->]|Hne].
    + right. congruence.
    + left. split; [by apply Hoth|by apply Hoth'].
  - destruct Hget as [Hgh Hgg]. rewrite /body /bind Hgh Hgg.
    destruct (override_config sub v h) as [r1 h1] eqn:Hrun1.
    destruct (IHv sub h g r1 h1 Hs Hrun1) as (g1 & Hrun1' & Hw1).
    rewrite Hrun1'. destruct r1 as [e|r1].
    + intros [= <- <-]. eauto.
    + simpl. intros Hrest.
      apply override_config_frame in Hrun1 as [Hs1 _].
      apply override_config_frame in Hrun1' as [Hs1' _].
      destruct (IHrest h1 g1 r h') as (g' & Hrun' & Hw); [|exact Hrest|].
      { by apply (same_shape_square h g). }
      exists g'. split; [exact Hrun'|]. by eapply same_writes_trans.
  - destruct Hget as (e & Hgh & Hgg). rewrite /body /bind Hgh Hgg.
    intros [= <- <-]. exists g. split; [done|]. apply same_writes_refl.
Qed.

(** X4.  What [override_config] does is decided by the shape of the
    store, not by the plain values in it.  On two stores with the same
    objects, classes and references, the same call returns the same node
    or raises the same exception, and makes the same writes: every
    attribute of every object is either left alone in both stores or
    ends with the same value in both. *)
Theorem override_config_shape_driven (cfg : loc) (overrides : data) (h g h' : heap) (r : exn + loc) :
  same_shape h g →
  override_config cfg overrides h = (r, h') →
  ∃ g', override_config cfg overrides g = (r, g') ∧
        same_shape h' g' ∧ same_writes h h' g g'.
Proof.
  intros Hs Hrun.
  destruct (override_config_on_shape overrides cfg h g r h' Hs Hrun)
    as (g' & Hrun' & Hw).
  exists g'. split; [done|]. split; [|done].
  apply override_config_frame in Hrun as [Hs1 _].
  apply override_config_frame in Hrun' as [Hs1' _].
  by apply (same_shape_square h g).
Qed.

Lemma demo_variant_shape :
  same_shape demo_heap (setattr 0 "x" (VData (DInt 9)) demo_heap).2.
Proof.
  destruct (setattr_data demo_heap 0 "x" (DInt 5) (DInt 9) eq_refl)
    as (g & Hset & Hs & _).
  by rewrite Hset.
Qed.

Lemma override_config_shape_driven_witness :
  let g := (setattr 0 "x" (VData (DInt 9)) demo_heap).2 in
  let overrides := DDict [("sub", DDict [("y", DInt 3)]); ("nope", DNone)] in
  ∃ g', override_config 0 overrides g
        = ((override_config 0 overrides demo_heap).1, g') ∧
        same_shape (override_config 0 overrides demo_heap).2 g' ∧
        same_writes demo_heap (override_config 0 overrides demo_heap).2 g g'.
Proof.
  intros g overrides.
  apply (override_config_shape_driven 0 overrides demo_heap g).
  - apply demo_variant_shape.
  - apply surjective_pairing.
Defined.

(** ** Applying the same overrides again *)

Lemma heap_ext (h g : heap) :
  (∀ l, class_at h l = class_at g l) →
  (∀ l k, attr h l k = attr g l k) →
  h = g.
Proof.
  intros Hc Ha. apply list_eq. intros l.
  specialize (Hc l). specialize (Ha l). unfold class_at, attr, heap, loc in *.
  destruct (h !! l) as [[c a]|], (g !! l) as [[c' a']|]; simplify_eq/=;
    [|done].
  f_equal. f_equal. by apply map_eq.
Qed.

(** X5.  [override_config] is idempotent: calling it again with the
    same overrides on the store it left has the same outcome (the same
    node returned, or the same exception raised) and changes nothing. *)
Theorem override_config_idempotent (cfg : loc) (overrides : data) (h h' : heap) (r : exn + loc) :
  override_config cfg overrides h = (r, h') →
  override_config cfg overrides h' = (r, h').
Proof.
  intros Hrun.
  pose proof (override_config_frame _ _ _ _ _ Hrun) as [Hs _].
  destruct (override_config_on_shape overrides cfg h h' r h' Hs Hrun)
    as (g' & Hrun' & Hw).
  rewrite Hrun'. f_equal.
  pose proof (override_config_frame _ _ _ _ _ Hrun') as [[Hc _] _].
  apply heap_ext; [done|]. intros l k.
  destruct (Hw l k) as [[_ ?]|?]; congruence.
Qed.

Lemma override_config_idempotent_witness :
  let overrides := DDict [("x", DInt 7); ("sub", DDict [("y", DInt 3)])] in
  let h' := (override_config 0 overrides demo_heap).2 in
  override_config 0 overrides h' = (inr 0, h').
Proof.
  intros overrides h'.
  apply (override_config_idempotent 0 overrides demo_heap).
  vm_compute. reflexivity.
Defined.

(** ** Every named leaf is applied *)

Lemma is_tree_shape h g cfg : same_shape h g → is_tree h cfg → is_tree g cfg.
Proof.
  intros Hs Ht q1 q2 l H1 H2. apply (Ht q1 q2 l); by apply (same_shape_path h g).
Qed.

Lemma is_tree_sub h cfg k sub :
  is_tree h cfg → field_val h cfg k = Some (VRef sub) → is_tree h sub.
Proof.
  intros Ht Hk q1 q2 l H1 H2.
  assert (k :: q1 = k :: q2) as [= ->]; [|done].
  apply (Ht _ _ l); apply path_val_cons; eauto.
Qed.

Lemma mentioned_not_key items k p :
  k ∉ items.*1 → mentioned (DDict items) (k :: p) = false.
Proof.
  induction items as [|[k' v] rest IH]; [done|].
  rewrite fmap_cons. intros [Hk Hrest]%not_elem_of_cons.
  by rewrite mentioned_dict_cons IH // bool_decide_eq_false_2.
Qed.

Lemma override_config_paths_kept cfg overrides h h' r p :
  is_tree h cfg →
  override_config cfg overrides h = (r, h') →
  mentioned overrides p = false →
  path_val h' (VRef cfg) p = path_val h (VRef cfg) p.
Proof.
  intros Htree Hrun Hp. apply override_config_frame in Hrun as [Hs Hframe].
  destruct p as [|k0 p0] using rev_ind; [done|]. clear IHp0.
  apply option_eq. intros w. rewrite !path_val_snoc.
  split; intros (l & Hq & Hw); exists l.
  - apply (same_shape_path h h') in Hq; [|done]. split; [done|].
    rewrite -Hframe //. intros q Hq'. by rewrite (Htree q p0 l).
  - split; [by apply (same_shape_path h h')|].
    rewrite Hframe //. intros q Hq'. by rewrite (Htree q p0 l).
Qed.

Lemma unique_keys_inv items :
  unique_keys (DDict items) = true →
  NoDup items.*1 ∧ ∀ k v, (k, v) ∈ items → unique_keys v = true.
Proof.
  simpl. intros [Hnd Hall]%andb_true_iff.
  split; [by apply bool_decide_eq_true in Hnd|]. clear Hnd.
  induction items as [|[k' v'] rest IH]; intros k v Hin.
  { by apply elem_of_nil in Hin. }
  apply andb_true_iff in Hall as [Hv Hrest].
  apply elem_of_cons in Hin as [[= -> ->]|Hin]; [done|]. by eapply IH.
Qed.

Lemma leaf_at_split items k p v :
  NoDup items.*1 →
  leaf_at (DDict items) (k :: p) = Some v →
  ∃ pre v0 post,
    items = pre ++ (k, v0) :: post ∧
    (k ∉ pre.*1) ∧ (k ∉ post.*1) ∧ leaf_at v0 p = Some v.
Proof.
  intros Hnd. simpl.
  destruct (list_find _ items) as [[i [k' v0]]|] eqn:E; [|done].
  apply list_find_Some in E as (Hi & Hk & Hbefore). simpl in Hk. subst k'.
  intros Hv. exists (take i items), v0, (drop (S i) items).
  pose proof (take_drop_middle _ _ _ Hi) as Hsplit.
  split; [done|]. rewrite -Hsplit fmap_app fmap_cons in Hnd.
  apply NoDup_app in Hnd as (_ & Hdisj & Hnd). simpl in Hnd.
  apply NoDup_cons in Hnd as [Hpost _]. split; [|done].
  intros Hin. apply (Hdisj k Hin). by left.
Qed.

Lemma override_config_leaf overrides :
  ∀ cfg h h' r p d v,
    is_tree h cfg → unique_keys overrides = true →
    override_config cfg overrides h = (inr r, h') →
    p ≠ [] →
    path_val h (VRef cfg) p = Some (VData d) →
    leaf_at overrides p = Some v →
    path_val h' (VRef cfg) p = Some (VData v).
Proof.
  induction overrides as [| | | | | |items IH] using data_ind; try done.
  intros cfg h h' r [|k p] d v Htree Huniq Hrun Hne Hp Hv; [done|].
  apply unique_keys_inv in Huniq as [Hnd Huniq].
  destruct (leaf_at_split items k p v Hnd Hv)
    as (pre & v0 & post & -> & Hpre & Hpost & Hv0).
  rewrite override_config_concat in Hrun.
  destruct (override_config cfg (DDict pre) h) as [[e|r1] h1] eqn:Hrun1;
    [done|].
  change ((k, v0) :: post) with ([(k, v0)] ++ post) in Hrun.
  rewrite override_config_concat in Hrun.
  destruct (override_config cfg (DDict [(k, v0)]) h1) as [[e|r2] h2] eqn:Hrun2;
    [done|].
  pose proof (override_config_frame _ _ _ _ _ Hrun1) as [Hs1 _].
  pose proof (override_config_frame _ _ _ _ _ Hrun2) as [Hs2 _].
  assert (Htree1 : is_tree h1 cfg) by by eapply is_tree_shape.
  assert (Htree2 : is_tree h2 cfg) by by eapply is_tree_shape.
  rewrite (override_config_paths_kept cfg (DDict post) h2 h' (inr r)) //;
    [|by apply mentioned_not_key].
  assert (Hp1 : path_val h1 (VRef cfg) (k :: p) = Some (VData d)).
  { rewrite (override_config_paths_kept cfg (DDict pre) h h1 (inr r1)) //.
    by apply mentioned_not_key. }
  apply path_val_cons in Hp1 as (v1 & Hk1 & Hp1).
  rewrite override_config_item (getattr_field_val _ _ _ _ Hk1) in Hrun2.
  destruct v1 as [d1|sub].
  - destruct p as [|k2 p]; [|done]. injection Hp1 as ->. injection Hv0 as ->.
    destruct (setattr_data h1 cfg k d v Hk1) as (h2' & Hset & _ & Hf & _).
    rewrite Hset in Hrun2. injection Hrun2 as _ <-. by rewrite /= Hf.
  - destruct (override_config sub v0 h1) as [[e|r3] h3] eqn:Hrun3; [done|].
    injection Hrun2 as _ <-.
    destruct p as [|k2 p]; [done|].
    rewrite ->Forall_forall in IH.
    apply path_val_cons. exists (VRef sub).
    split; [by apply (same_shape_ref h1 h3)|].
    apply (IH (k, v0)) with h1 r3 d; try done.
    + apply elem_of_app. right. by left.
    + by eapply is_tree_sub.
    + apply (Huniq k). apply elem_of_app. right. by left.
Qed.

(** X6.  On a tree, a returning [override_config] with a mapping that
    has each key once applies every leaf it names: if the field at
    [node.k1...kn] held plain data and [overrides[k1]...[kn]] exists,
    the field holds that override value afterwards. *)
Theorem override_config_applies_leaves (cfg : loc) (overrides : data) (h h' : heap) (r : loc) (p : list string) (d v : data) :
  is_tree h cfg → unique_keys overrides = true →
  override_config cfg overrides h = (inr r, h') →
  p ≠ [] →
  path_val h (VRef cfg) p = Some (VData d) →
  leaf_at overrides p = Some v →
  path_val h' (VRef cfg) p = Some (VData v).
Proof.
  intros Htree Huniq Hrun Hne Hp Hv.
  by apply (override_config_leaf overrides cfg h h' r p d v).
Qed.

Lemma override_config_applies_leaves_witness :
  let overrides := DDict [("x", DInt 7);
                          ("sub", DDict [("z", DInt 8); ("y", DInt 3)])] in
  let h' := (override_config 0 overrides demo_heap).2 in
  path_val h' (VRef 0) ["sub"; "y"] = Some (VData (DInt 3)).
Proof.
  intros overrides h'.
  apply (override_config_applies_leaves 0 overrides demo_heap h' 0
           ["sub"; "y"] (DInt 1) (DInt 3)).
  - apply demo_is_tree.
  - reflexivity.
  - vm_compute. reflexivity.
  - done.
  - reflexivity.
  - reflexivity.
Defined.

(** ** Ownership: each node owns its children *)

Lemma owned_data lo hi h d : owned lo hi h (VData d).
Proof.
  split.
  - intros p l Hp. by apply path_val_data in Hp.
  - intros p q l Hp. by apply path_val_data in Hp.
Qed.

Lemma path_frame lo hi (h h' : heap) v :
  (∀ l, lo ≤ l < hi → h' !! l = h !! l) →
  (∀ p l, path_val h v p = Some (VRef l) → lo ≤ l < hi) →
  ∀ p, path_val h' v p = path_val h v p.
Proof.
  intros Hsame Hrange p. induction p as [|k p IH] using rev_ind; [done|].
  apply option_eq. intros w. rewrite !path_val_snoc. rewrite IH.
  split; intros (l & Hp & Hw); exists l; (split; [done|]);
    revert Hw; by rewrite /field_val (Hsame l (Hrange p l Hp)).
Qed.

Lemma owned_frame lo hi (h h' : heap) v :
  (∀ l, lo ≤ l < hi → h' !! l = h !! l) →
  owned lo hi h v → owned lo hi h' v.
Proof.
  intros Hsame [Hrange Htree].
  pose proof (path_frame lo hi h h' v Hsame Hrange) as Hp.
  split.
  - intros p l. rewrite Hp. apply Hrange.
  - intros p q l. rewrite !Hp. apply Htree.
Qed.

Lemma owned_mono lo hi lo' hi' h v :
  lo' ≤ lo → hi ≤ hi' → owned lo hi h v → owned lo' hi' h v.
Proof.
  intros Hlo Hhi [Hrange Htree]. split; [|done].
  intros p l Hp. specialize (Hrange p l Hp). lia.
Qed.

Lemma laid_le lo h self names hi : laid lo h self names hi → lo ≤ hi.
Proof.
  revert lo. induction names as [|k rest IH]; intros lo; [done|].
  intros (mid & v & Hmid & _ & _ & Hrest). apply IH in Hrest. lia.
Qed.

Lemma laid_frame lo hi (h h' : heap) self names :
  (∀ l, lo ≤ l < hi → h' !! l = h !! l) →
  (∀ k, k ∈ names → field_val h' self k = field_val h self k) →
  laid lo h self names hi → laid lo h' self names hi.
Proof.
  revert lo. induction names as [|k rest IH]; intros lo Hsame Hf; [done|].
  intros (mid & v & Hmid & Hk & Hown & Hrest).
  pose proof (laid_le _ _ _ _ _ Hrest) as Hle.
  exists mid, v. split; [done|]. split; [rewrite Hf //; by left|]. split.
  - eapply owned_frame; [|done]. intros l Hl. apply Hsame. lia.
  - apply IH; [| |done].
    + intros l Hl. apply Hsame. lia.
    + intros k' Hk'. apply Hf. by right.
Qed.

Lemma laid_lower lo lo' h self names hi :
  lo' ≤ lo → laid lo h self names hi → laid lo' h self names hi.
Proof.
  intros Hlo. destruct names as [|k rest]; simpl; [lia|].
  intros (mid & v & Hmid & Hk & Hown & Hrest).
  exists mid, v. split; [lia|]. split; [done|]. split; [|done].
  eapply owned_mono; [| |done]; lia.
Qed.

(** A field among [names] owns what it holds, inside [[lo, hi)]. *)
Lemma laid_lookup lo h self names hi k :
  laid lo h self names hi → k ∈ names →
  ∃ v, field_val h self k = Some v ∧ owned lo hi h v.
Proof.
  revert lo. induction names as [|k' rest IH]; intros lo Hlaid Hin.
  { by apply elem_of_nil in Hin. }
  destruct Hlaid as (mid & v & Hmid & Hk & Hown & Hrest).
  pose proof (laid_le _ _ _ _ _ Hrest) as Hle.
  apply elem_of_cons in Hin as [->|Hin].
  - exists v. split; [done|]. eapply owned_mono; [| |done]; lia.
  - destruct (IH mid Hrest Hin) as (v' & Hk' & Hown').
    exists v'. split; [done|]. eapply owned_mono; [| |done]; lia.
Qed.

(** Two different fields hold nothing in common. *)
Lemma laid_apart lo h self names hi k1 k2 v1 v2 p1 p2 l :
  laid lo h self names hi → NoDup names →
  k1 ∈ names → k2 ∈ names →
  field_val h self k1 = Some v1 → field_val h self k2 = Some v2 →
  path_val h v1 p1 = Some (VRef l) → path_val h v2 p2 = Some (VRef l) →
  k1 = k2.
Proof.
  revert lo. induction names as [|k rest IH];
    intros lo Hlaid Hnd Hin1 Hin2 Hv1 Hv2 Hp1 Hp2.
  { by apply elem_of_nil in Hin1. }
  destruct Hlaid as (mid & v & Hmid & Hk & [Hrange _] & Hrest).
  apply NoDup_cons in Hnd as [Hk_rest Hnd].
  assert (Hrest_range : ∀ k' v' p', k' ∈ rest →
            field_val h self k' = Some v' →
            path_val h v' p' = Some (VRef l) → mid ≤ l).
  { intros k' v' p' Hin' Hv' Hp'.
    destruct (laid_lookup _ _ _ _ _ k' Hrest Hin') as (v'' & Hv'' & [Hr _]).
    assert (v'' = v') as -> by congruence.
    specialize (Hr p' l Hp'). lia. }
  apply elem_of_cons in Hin1 as [->|Hin1], Hin2 as [->|Hin2]; try done.
  - assert (v1 = v) as -> by congruence.
    specialize (Hrange p1 l Hp1).
    specialize (Hrest_range k2 v2 p2 Hin2 Hv2 Hp2). lia.
  - assert (v2 = v) as -> by congruence.
    specialize (Hrange p2 l Hp2).
    specialize (Hrest_range k1 v1 p1 Hin1 Hv1 Hp1). lia.
  - by eapply IH.
Qed.

(** An object that lies below the ranges of its fields and whose
    declared fields own what they hold is the root of a tree. *)
Lemma tree_of_laid lo hi h self c :
  class_at h self = Some c → self < lo → NoDup (field_names c) →
  laid lo h self (field_names c) hi →
  (∀ p l, p ≠ [] → path_val h (VRef self) p = Some (VRef l) → lo ≤ l < hi) ∧
  is_tree h self.
Proof.
  intros Hc Hself Hnd Hlaid.
  assert (Hbelow : ∀ p l, p ≠ [] →
            path_val h (VRef self) p = Some (VRef l) → lo ≤ l < hi).
  { intros [|k p] l Hne Hp; [done|].
    apply path_val_cons in Hp as (v & Hv & Hp).
    pose proof (field_val_declared _ _ _ _ _ Hv Hc) as Hk.
    destruct (laid_lookup _ _ _ _ _ k Hlaid Hk) as (v' & Hv' & [Hr _]).
    assert (v' = v) as -> by congruence. by apply (Hr p). }
  split; [done|]. intros q1 q2 l H1 H2.
  destruct q1 as [|k1 q1], q2 as [|k2 q2]; [done| | |].
  - injection H1 as <-. destruct (Hbelow (k2 :: q2) self); [done..|lia].
  - injection H2 as <-. destruct (Hbelow (k1 :: q1) self); [done..|lia].
  - apply path_val_cons in H1 as (v1 & Hv1 & H1).
    apply path_val_cons in H2 as (v2 & Hv2 & H2).
    pose proof (field_val_declared _ _ _ _ _ Hv1 Hc) as Hk1.
    pose proof (field_val_declared _ _ _ _ _ Hv2 Hc) as Hk2.
    assert (k1 = k2) as -> by by eapply laid_apart.
    assert (v2 = v1) as -> by congruence.
    destruct (laid_lookup _ _ _ _ _ k2 Hlaid Hk2) as (v' & Hv' & [_ Ht]).
    assert (v' = v1) as -> by congruence.
    by rewrite (Ht q1 q2 l).
Qed.

Lemma owned_of_laid lo hi h self c :
  class_at h self = Some c → self < lo →
  NoDup (field_names c) →
  laid lo h self (field_names c) hi →
  owned self hi h (VRef self).
Proof.
  intros Hc Hself Hnd Hlaid.
  pose proof (laid_le _ _ _ _ _ Hlaid) as Hle.
  destruct (tree_of_laid lo hi h self c) as [Hbelow Htree]; [done..|].
  split; [|done]. intros [|k p] l Hp.
  - injection Hp as <-. lia.
  - destruct (Hbelow (k :: p) l); [done..|lia].
Qed.

Lemma field_loop_tree {A} (self : loc) (c : class) (body : A → M unit)
    (name : A → string) (xs : list A) :
  NoDup (name <$> xs) →
  (∀ x h, x ∈ xs → class_at h self = Some c →
     ∃ h', body x h = (inr tt, h') ∧ step_tree self c (name x) h h') →
  ∀ h, class_at h self = Some c →
    ∃ h', for_each body xs h = (inr tt, h') ∧
          loop_tree self c (name <$> xs) h h'.
Proof.
  induction xs as [|x xs IH]; intros Hnd Hstep h Hc.
  - exists h. split; [done|]. unfold loop_tree. simpl. repeat split; done.
  - rewrite fmap_cons in Hnd. apply NoDup_cons in Hnd as [Hx Hnd].
    destruct (Hstep x h) as (h1 & Hrun1 & Hlen1 & Hold1 & Hc1 & Hoth1 & v & Hv & Hown);
      [by left|done|].
    destruct (IH Hnd) with (h := h1) as (h2 & Hrun2 & Hlen2 & Hold2 & Hc2 & Hoth2 & Hlaid);
      [intros; apply Hstep; [by right|done]|done|].
    pose proof (class_at_lt _ _ _ Hc) as Hself.
    exists h2. split.
    { rewrite for_each_cons. by erewrite bind_ok. }
    unfold loop_tree. split; [lia|]. split.
    { intros l Hl Hne. rewrite Hold2; [by apply Hold1|lia|done]. }
    split; [done|]. split.
    { intros k' Hk'. rewrite fmap_cons in Hk'.
      apply not_elem_of_cons in Hk' as [Hk1 Hk2].
      rewrite Hoth2 //. by apply Hoth1. }
    rewrite fmap_cons. exists (length h1), v. split; [done|].
    split; [by rewrite Hoth2|]. split; [|done].
    eapply owned_frame; [|done]. intros l Hl. apply Hold2; lia.
Qed.

(** [cls()] builds a tree of new objects. *)
Lemma new_tree c :
  wf_class c = true →
  ∀ h h' r, new c h = (inr r, h') → owned (length h) (length h') h' (VRef r).
Proof.
  induction c as [n fs IH] using class_ind. intros Hwf h h' r Hrun.
  pose proof Hwf as Hwf0.
  apply wf_class_inv in Hwf as [Hnd Hwf]. simpl in Hwf.
  set (c := Class n fs) in *. set (self := length h).
  set (h0 := h ++ [Obj c ∅]).
  assert (Hc0 : class_at h0 self = Some c).
  { by rewrite /class_at /h0 /self lookup_app_r // Nat.sub_diag. }
  assert (length h0 = S (length h)) as Hlen0.
  { rewrite /h0 length_app /=. lia. }
  destruct (field_loop_tree self c
    (λ f, bind (match f_default f with
                | DValue d => ret (VData d)
                | DFactory c' => bind (new c') (λ sub, ret (VRef sub))
                end) (λ v, setattr self (fname f) v)) fname fs) with (h := h0)
    as (h1 & Hloop & Hlen & Hold & Hc & _ & Hlaid); [done| |done|].
  { intros f h1 Hf Hc1. pose proof (class_at_lt _ _ _ Hc1) as Hself.
    assert (Hname : fname f ∈ field_names c).
    { apply list_elem_of_fmap. eauto. }
    destruct (Hwf f Hf) as [_ Hwfd]. rewrite ->Forall_forall in IH.
    destruct (IH f Hf) as [_ IHd].
    destruct (f_default f) as [d|c'].
    - destruct (setattr_ok h1 self (fname f) (VData d) c)
        as (h2 & Hset & Hlen2 & Hsame & Hc2 & Hv & Hoth); [done..|].
      exists h2. split; [by erewrite bind_ok|].
      split; [lia|]. split; [intros; by apply Hsame|].
      split; [done|]. split; [done|]. exists (VData d).
      split; [done|]. apply owned_data.
    - destruct (new_spec c' Hwfd h1) as (h2 & Hnew & Hlen2 & Hold2 & _).
      pose proof (IHd Hwfd h1 h2 _ Hnew) as Hown.
      destruct (setattr_ok h2 self (fname f) (VRef (length h1)) c)
        as (h3 & Hset & Hlen3 & Hsame & Hc3 & Hv & Hoth).
      { by rewrite /class_at Hold2. }
      { done. }
      exists h3. split.
      { erewrite bind_ok; [done|]. by erewrite bind_ok. }
      split; [lia|]. split.
      { intros l Hl Hne. rewrite Hsame //. by apply Hold2. }
      split; [done|]. split.
      { intros k' Hk'. rewrite Hoth // /field_val. by rewrite Hold2. }
      exists (VRef (length h1)). split; [done|]. rewrite Hlen3.
      eapply owned_frame; [|done]. intros l Hl. apply Hsame. lia. }
  assert (new c h = (inr self, h1)) as Hrun'.
  { change (new c) with (bind (alloc c) (λ self,
      bind (for_each (λ f, bind (match f_default f with
                | DValue d => ret (VData d)
                | DFactory c' => bind (new c') (λ sub, ret (VRef sub))
                end) (λ v, setattr self (fname f) v)) (cfields c))
        (λ _, ret self))).
    erewrite bind_ok; [|done]. by erewrite bind_ok. }
  rewrite Hrun' in Hrun. injection Hrun as <- <-.
  apply (owned_of_laid (length h0) _ _ _ c); [done|unfold self; lia|done|done].
Qed.

(** [init_empty] leaves every declared field of the node owning what
    it holds, at addresses allocated during the call. *)
Lemma init_empty_cls_tree MISSING c :
  wf_class c = true →
  ∀ cfg h h' r, class_at h cfg = Some c →
    init_empty_cls MISSING c cfg h = (inr r, h') →
    laid (length h) h' cfg (field_names c) (length h').
Proof.
  induction c as [n fs IH] using class_ind. intros Hwf self h h' r Hc0 Hrun.
  pose proof Hwf as Hwf0.
  apply wf_class_inv in Hwf as [Hnd Hwf]. simpl in Hwf.
  set (c := Class n fs) in *.
  destruct (field_loop_tree self c
    (λ f, match f_type f with
          | TData c' =>
              bind (new c') (λ fresh,
                bind (init_empty_cls MISSING c' fresh) (λ sub,
                  setattr self (fname f) (VRef sub)))
          | TPlain => setattr self (fname f) (VData MISSING)
          end) fname fs) with (h := h)
    as (h1 & Hloop & Hlen & Hold & Hc & _ & Hlaid); [done| |done|].
  { intros f h1 Hf Hc1. pose proof (class_at_lt _ _ _ Hc1) as Hself.
    assert (Hname : fname f ∈ field_names c).
    { apply list_elem_of_fmap. eauto. }
    destruct (Hwf f Hf) as [Hwft _]. rewrite ->Forall_forall in IH.
    destruct (IH f Hf) as [IHt _].
    destruct (f_type f) as [|c'].
    - destruct (setattr_ok h1 self (fname f) (VData MISSING) c)
        as (h2 & Hset & Hlen2 & Hsame & Hc2 & Hv & Hoth); [done..|].
      exists h2. split; [done|].
      split; [lia|]. split; [intros; by apply Hsame|].
      split; [done|]. split; [done|]. exists (VData MISSING).
      split; [done|]. apply owned_data.
    - destruct (new_spec c' Hwft h1) as (h2 & Hnew & Hlen2 & Hold2 & Hrepr2).
      apply repr_class in Hrepr2.
      destruct (init_empty_cls_spec MISSING c' Hwft (length h1) h2 Hrepr2)
        as (h3 & Hinit & Hlen3 & Hold3 & Hc3 & _ & _).
      pose proof (IHt Hwft (length h1) h2 h3 _ Hrepr2 Hinit) as Hlaid3.
      assert (Hself3 : h3 !! self = h1 !! self).
      { rewrite Hold3; [by apply Hold2|lia..]. }
      destruct (setattr_ok h3 self (fname f) (VRef (length h1)) c)
        as (h4 & Hset & Hlen4 & Hsame & Hc4 & Hv & Hoth).
      { by rewrite /class_at Hself3. }
      { done. }
      exists h4. split.
      { erewrite bind_ok; [|done]. by erewrite bind_ok. }
      split; [lia|]. split.
      { intros l Hl Hne. rewrite Hsame // Hold3; [by apply Hold2|lia..]. }
      split; [done|]. split.
      { intros k' Hk'. rewrite Hoth // /field_val. by rewrite Hself3. }
      exists (VRef (length h1)). split; [done|]. rewrite Hlen4.
      apply owned_frame with h3; [intros l Hl; apply Hsame; lia|].
      apply wf_class_inv in Hwft as [Hnd' _].
      apply (owned_of_laid (length h2) _ _ _ c'); [done|lia|done|done]. }
  assert (init_empty_cls MISSING c self h = (inr self, h1)) as Hrun'.
  { change (init_empty_cls MISSING c self) with
      (bind (for_each (λ f, match f_type f with
            | TData c' =>
                bind (new c') (λ fresh,
                  bind (init_empty_cls MISSING c' fresh) (λ sub,
                    setattr self (fname f) (VRef sub)))
            | TPlain => setattr self (fname f) (VData MISSING)
            end) (cfields c)) (λ _, ret self)).
    by erewrite bind_ok. }
  rewrite Hrun' in Hrun. by injection Hrun as <- <-.
Qed.

(** ** What the constructor builds *)

Lemma default_kid lo hi h l c k :
  class_at h l = Some c →
  repr_kids lo hi h l (kids_of (default_tree c)) →
  match list_find (λ f, fname f = k) (cfields c) with
  | Some (_, f) =>
      ∃ v, field_val h l k = Some v ∧
           repr lo hi h v match f_default f with
                          | DFactory c' => default_tree c'
                          | DValue d => Leaf d
                          end
  | None => field_val h l k = None
  end.
Proof.
  intros Hc Hkids. destruct c as [n fs]. simpl in *.
  destruct (list_find _ fs) as [[i f]|] eqn:E.
  - apply list_find_Some in E as (Hi & <- & _).
    unfold repr_kids in Hkids. rewrite ->Forall_fmap, Forall_forall in Hkids.
    apply (Hkids f). by eapply list_elem_of_lookup_2.
  - destruct (field_val h l k) as [v|] eqn:Hv; [|done].
    eapply field_val_declared in Hv; [|done].
    apply list_elem_of_fmap in Hv as (f & -> & Hf).
    rewrite ->list_find_None, Forall_forall in E. by destruct (E f Hf).
Qed.

Lemma default_observe lo hi h p :
  ∀ c l, repr lo hi h (VRef l) (default_tree c) →
         observe h l p = default_at c p.
Proof.
  induction p as [|k p IH]; intros c l Hr.
  - apply repr_class in Hr. by rewrite /observe /= Hr.
  - pose proof (repr_class _ _ _ _ _ Hr) as Hc.
    assert (repr_kids lo hi h l (kids_of (default_tree c))) as Hkids.
    { destruct c as [n fs]. by apply repr_node in Hr as (l' & [= <-] & _ & _ & Hk). }
    pose proof (default_kid lo hi h l c k Hc Hkids) as Hkid.
    rewrite /observe /=.
    destruct (list_find _ (cfields c)) as [[i f]|]; [|by rewrite Hkid].
    destruct Hkid as (v & -> & Hv). destruct (f_default f) as [d|c'].
    + simpl in Hv. subst v. by destruct p.
    + assert (∃ l', v = VRef l') as [l' ->].
      { destruct c' as [n' fs']. apply repr_node in Hv as (l' & -> & _). eauto. }
      apply (IH c' l' Hv).
Qed.

(** X7.  For every schema, [cls()] returns a new object and changes no
    object that existed.  Along every path the new instance reads the
    declared default (a default value, or a default instance of the
    factory's class); every node of it was allocated during the call,
    and it is a tree: no node is reached by two paths. *)
Theorem new_builds_default_tree (c : class) (h : heap) :
  wf_class c = true →
  ∃ h',
    new c h = (inr (length h), h') ∧
    (∀ l, l < length h → h' !! l = h !! l) ∧
    (∀ p, observe h' (length h) p = default_at c p) ∧
    (∀ p l, path_val h' (VRef (length h)) p = Some (VRef l) →
            length h ≤ l < length h') ∧
    is_tree h' (length h).
Proof.
  intros Hwf. destruct (new_spec c Hwf h) as (h' & Hrun & _ & Hold & Hrepr).
  destruct (new_tree c Hwf h h' _ Hrun) as [Hrange Htree].
  exists h'. split; [done|]. split; [done|].
  split; [intros p; by eapply default_observe|]. done.
Qed.

Lemma new_builds_default_tree_witness :
  ∃ h',
    new Root demo_heap = (inr 2, h') ∧
    (∀ l, l < 2 → h' !! l = demo_heap !! l) ∧
    (∀ p, observe h' 2 p = default_at Root p) ∧
    (∀ p l, path_val h' (VRef 2) p = Some (VRef l) → 2 ≤ l < length h') ∧
    is_tree h' 2.
Proof. apply (new_builds_default_tree Root demo_heap). reflexivity. Defined.

(** X8.  Two constructions share nothing: the tree built first reads
    the same after the second construction, and no node of the second
    tree is a node of the first. *)
Theorem new_twice_disjoint (c1 c2 : class) (h h1 h2 : heap) (r1 r2 : loc) :
  wf_class c1 = true → wf_class c2 = true →
  new c1 h = (inr r1, h1) → new c2 h1 = (inr r2, h2) →
  (∀ p, path_val h2 (VRef r1) p = path_val h1 (VRef r1) p) ∧
  (∀ p q l, path_val h2 (VRef r1) p = Some (VRef l) →
            path_val h2 (VRef r2) q = Some (VRef l) → False).
Proof.
  intros Hwf1 Hwf2 Hrun1 Hrun2.
  destruct (new_tree c1 Hwf1 h h1 r1 Hrun1) as [Hrange1 _].
  destruct (new_tree c2 Hwf2 h1 h2 r2 Hrun2) as [Hrange2 _].
  destruct (new_spec c2 Hwf2 h1) as (h2' & Hrun2' & _ & Hold & _).
  rewrite Hrun2 in Hrun2'. injection Hrun2' as _ <-.
  assert (Hkept : ∀ p, path_val h2 (VRef r1) p = path_val h1 (VRef r1) p).
  { apply (path_frame (length h) (length h1)); [|done].
    intros l Hl. apply Hold. lia. }
  split; [done|]. intros p q l Hp Hq. rewrite Hkept in Hp.
  specialize (Hrange1 p l Hp). specialize (Hrange2 q l Hq). lia.
Qed.

Lemma new_twice_disjoint_witness :
  let h1 := (new Root []).2 in
  let h2 := (new Root h1).2 in
  (∀ p, path_val h2 (VRef 0) p = path_val h1 (VRef 0) p) ∧
  (∀ p q l, path_val h2 (VRef 0) p = Some (VRef l) →
            path_val h2 (VRef 2) q = Some (VRef l) → False).
Proof.
  intros h1 h2.
  apply (new_twice_disjoint Root Root [] h1 h2 0 2); reflexivity.
Defined.

(** ** Trees are built and kept *)

(** X9.  Whatever the node held before, shared or not, after
    [init_empty] it is the root of a tree: no node below it is reached
    by two different paths. *)
Theorem init_empty_builds_tree (MISSING : data) (c : class) (cfg : loc) (h : heap) :
  wf_class c = true → class_at h cfg = Some c →
  ∃ h', init_empty MISSING cfg h = (inr cfg, h') ∧ is_tree h' cfg.
Proof.
  intros Hwf Hc.
  destruct (init_empty_cls_spec MISSING c Hwf cfg h Hc)
    as (h' & Hrun & _ & _ & Hc' & _ & _).
  pose proof (init_empty_cls_tree MISSING c Hwf cfg h h' cfg Hc Hrun) as Hlaid.
  exists h'. split.
  - unfold init_empty. erewrite bind_ok; [done|]. by apply type_of_class_at.
  - apply wf_class_inv in Hwf as [Hnd _].
    apply (tree_of_laid (length h) (length h') h' cfg c); try done.
    by eapply class_at_lt.
Qed.

Lemma init_empty_builds_tree_witness :
  let shared := <[0 := Obj Root {["x" := VRef 1; "sub" := VRef 1]}]> demo_heap in
  path_val shared (VRef 0) ["x"] = path_val shared (VRef 0) ["sub"] ∧
  ∃ h', init_empty demo_missing 0 shared = (inr 0, h') ∧ is_tree h' 0.
Proof.
  intros shared. split; [reflexivity|].
  apply (init_empty_builds_tree demo_missing Root 0 shared); reflexivity.
Defined.

(** X10.  [override_config] keeps a tree a tree, whether it returns or
    raises: every node below the root is still reached by one path
    only, and by the same path as before. *)
Theorem override_config_keeps_tree (cfg : loc) (overrides : data) (h h' : heap) (r : exn + loc) :
  is_tree h cfg →
  override_config cfg overrides h = (r, h') →
  is_tree h' cfg ∧
  ∀ p l, path_val h' (VRef cfg) p = Some (VRef l) ↔
         path_val h (VRef cfg) p = Some (VRef l).
Proof.
  intros Htree Hrun. apply override_config_frame in Hrun as [Hs _].
  split; [by eapply is_tree_shape|].
  intros p l. symmetry. by apply same_shape_path.
Qed.

Lemma override_config_keeps_tree_witness :
  let overrides := DDict [("sub", DDict [("y", DInt 3)]); ("sub", DInt 0)] in
  let h' := (override_config 0 overrides demo_heap).2 in
  is_tree h' 0 ∧
  ∀ p l, path_val h' (VRef 0) p = Some (VRef l) ↔
         path_val demo_heap (VRef 0) p = Some (VRef l).
Proof.
  intros overrides h'.
  apply (override_config_keeps_tree 0 overrides demo_heap h'
           (override_config 0 overrides demo_heap).1).
  - apply demo_is_tree.
  - apply surjective_pairing.
Defined.

(** ** The template, then the user's values *)

Lemma init_empty_result MISSING c cfg h r h' :
  wf_class c = true → class_at h cfg = Some c →
  init_empty MISSING cfg h = (inr r, h') →
  r = cfg ∧ is_tree h' cfg ∧
  ∀ k p, blank_at MISSING (length h) (length h') h' (VRef cfg) c (k :: p).
Proof.
  intros Hwf Hc Hrun.
  destruct (init_empty_cls_spec MISSING c Hwf cfg h Hc)
    as (h1 & Hrun1 & _ & _ & Hc1 & _ & Hkids).
  pose proof (init_empty_cls_tree MISSING c Hwf cfg h h1 cfg Hc Hrun1) as Hlaid.
  revert Hrun. unfold init_empty.
  erewrite bind_ok; [|by apply type_of_class_at].
  rewrite Hrun1. intros [= <- <-]. split; [done|]. split.
  - apply wf_class_inv in Hwf as [Hnd _].
    apply (tree_of_laid (length h) (length h1) h1 cfg c); try done.
    by eapply class_at_lt.
  - intros k p. by apply init_empty_paths.
Qed.

(** X11.  [init_empty] followed by a returning [override_config] (with
    each key once per mapping) gives the tree the docstrings describe:
    a plain field of the schema, at any depth, holds the user's value
    if the overrides name it, and still holds [MISSING] if they do
    not. *)
Theorem overrides_on_template (MISSING : data) (c : class) (cfg r1 r2 : loc) (overrides : data) (h h1 h2 : heap) (p : list string) :
  wf_class c = true → class_at h cfg = Some c →
  unique_keys overrides = true →
  init_empty MISSING cfg h = (inr r1, h1) →
  override_config r1 overrides h1 = (inr r2, h2) →
  schema_at c p = Some TPlain →
  r2 = cfg ∧
  (∀ v, leaf_at overrides p = Some v →
        path_val h2 (VRef cfg) p = Some (VData v)) ∧
  (mentioned overrides p = false →
   path_val h2 (VRef cfg) p = Some (VData MISSING)).
Proof.
  intros Hwf Hc Huniq Hrun1 Hrun2 Hp.
  destruct (init_empty_result MISSING c cfg h r1 h1 Hwf Hc Hrun1)
    as (-> & Htree & Hblank).
  assert (Hleaf : p ≠ [] ∧ path_val h1 (VRef cfg) p = Some (VData MISSING)).
  { destruct p as [|k p]; [done|]. split; [done|].
    specialize (Hblank k p). unfold blank_at in Hblank. by rewrite Hp in Hblank. }
  destruct Hleaf as [Hne Hleaf]. split; [|split].
  - pose proof (override_config_outcome overrides cfg h1) as Hout.
    destruct (acceptable h1 cfg overrides).
    + destruct Hout as [h' Hout]. congruence.
    + destruct Hout as (e & h' & Hout). congruence.
  - intros v Hv.
    by apply (override_config_leaf overrides cfg h1 h2 r2 p MISSING v).
  - intros Hm.
    by rewrite (override_config_paths_kept cfg overrides h1 h2 (inr r2)).
Qed.

Lemma overrides_on_template_witness :
  let overrides := DDict [("sub", DDict [("y", DInt 3)])] in
  let h1 := (init_empty demo_missing 0 demo_heap).2 in
  let h2 := (override_config 0 overrides h1).2 in
  path_val h2 (VRef 0) ["sub"; "y"] = Some (VData (DInt 3)) ∧
  path_val h2 (VRef 0) ["sub"; "z"] = Some (VData demo_missing) ∧
  path_val h2 (VRef 0) ["x"] = Some (VData demo_missing).
Proof.
  intros overrides h1 h2.
  assert (∀ p, schema_at Root p = Some TPlain →
    0 = 0 ∧
    (∀ v, leaf_at overrides p = Some v →
          path_val h2 (VRef 0) p = Some (VData v)) ∧
    (mentioned overrides p = false →
     path_val h2 (VRef 0) p = Some (VData demo_missing))) as H.
  { intros p. apply (overrides_on_template demo_missing Root 0 0 0 overrides
                       demo_heap h1 h2 p); reflexivity. }
  split; [|split].
  - apply (H ["sub"; "y"]); reflexivity.
  - apply (H ["sub"; "z"]); reflexivity.
  - apply (H ["x"]); reflexivity.
Defined.

(** ** Fields read from the class *)

(** An instance on which nothing has been assigned yet still reads the
    plain defaults that the class keeps: overriding such a field
    returns and assigns it on the instance.  A field declared with a
    default factory has no class attribute; reading it raises. *)
Example override_config_class_default :
  acceptable [Obj Root ∅] 0 (DDict [("x", DInt 7)]) = true ∧
  override_config 0 (DDict [("x", DInt 7)]) [Obj Root ∅]
  = (inr 0, [Obj Root {["x" := VData (DInt 7)]}]) ∧
  acceptable [Obj Root ∅] 0 (DDict [("sub", DDict [])]) = false ∧
  override_config 0 (DDict [("sub", DDict [])]) [Obj Root ∅]
  = (inl AttributeError, [Obj Root ∅]).
Proof. repeat split; vm_compute; reflexivity. Qed.
